(** * interactive_file_checker.py: the batch file checker

    A shallow embedding of [FileChecker] (its methods [check_file],
    [worker] and [check_batch]) and the properties of the validation
    engine proved on it.

    - Python [str] values are lists of Unicode code points, so that the
      slice [str(e)[:50]] is [take 50].
    - The operating system is a record of oracles for the four library
      calls [check_file] makes.
    - [check_file] is written in a small monad whose state is the [result]
      dict and whose control outcomes are falling through, [return] and a
      raised exception.
    - [check_batch] is a transition system: the main thread and the worker
      threads take atomic steps, interleaved by an arbitrary scheduler.
      The lock is a field of the state, and [self.processed += 1] is a read
      followed by a write, so that what the lock protects is proved and not
      assumed.

    What is left out: the text written to the console (the writes are
    taken to succeed), and failures to start a thread.  The file system is
    the same for every call of one batch.

    The second part covers the code around the engine: the progress line
    of [worker], the dialogue of [get_settings], [scan_directory],
    [load_file_list], the counts and the grouping of
    [show_results_summary], and the way [main] calls [check_batch].  The
    methods of [str] and the functions of [os] they call are parameters.
    [save_results_to_file] and the menu loop of [main] are not modelled:
    they format and print. *)

From Stdlib Require Import ZArith String Ascii.
From stdpp Require Import base numbers relations list.

Open Scope Z_scope.

(** ** Python strings *)

Definition pystr : Type := list N.

(** The code points of an ASCII literal. *)
Definition str (s : string) : pystr :=
  N_of_ascii <$> list_ascii_of_string s.

(** The five messages [check_file] stores under ['error'], by code point. *)

(* "文件不存在" (line 68) *)
Definition msg_not_exist : pystr := [25991; 20214; 19981; 23384; 22312]%N.
(* "空文件" (line 76) *)
Definition msg_empty : pystr := [31354; 25991; 20214]%N.
(* "权限不足" (line 86) *)
Definition msg_permission : pystr := [26435; 38480; 19981; 36275]%N.
(* "读取失败: " (line 88) *)
Definition msg_read_failed : pystr := [35835; 21462; 22833; 36133; 58; 32]%N.
(* "检查错误: " (line 91) *)
Definition msg_check_error : pystr := [26816; 26597; 38169; 35823; 58; 32]%N.

(** ** Exceptions and the operating system *)

(** The two [except] clauses of [check_file] tell [PermissionError] from
    every other subclass of [Exception]; [str_e] is [str(e)]. *)
Inductive exn_class := PermissionError | OtherException.

Record exn := Exn { class_of : exn_class; str_e : pystr }.

Definition is_PermissionError (e : exn) : bool :=
  match class_of e with PermissionError => true | OtherException => false end.

Inductive outcome (A : Type) :=
| Ok (a : A)
| Raised (e : exn).
Arguments Ok {A} a.
Arguments Raised {A} e.

(** The library calls of [check_file] and of [worker].
    [os.path.basename] and [os.path.exists] return a value for every [str]
    ([exists] answers [False] when the underlying [stat] fails);
    [os.path.getsize] and the block
    [with open(filepath, 'rb') as f: f.read(n)] may raise.

    [stdout_write n total readable name] is [sys.stdout.write] followed by
    [sys.stdout.flush] (lines 119-121) on the progress line that shows the
    count [n] of [total], the mark for [readable] and the name [name]: the
    four values fix the text, and the console may refuse it
    (UnicodeEncodeError on a character it cannot encode). *)
Record OS := {
  os_path_basename : pystr → pystr;
  os_path_exists : pystr → bool;
  os_path_getsize : pystr → outcome Z;
  open_rb_read : pystr → Z → outcome unit;
  stdout_write : Z → Z → bool → pystr → outcome unit
}.

(** ** The result dict *)

Record Result := {
  file : pystr;
  filename : pystr;
  exists_ : bool;
  readable : bool;
  size : Z;
  error : option pystr
}.

Definition set_exists (b : bool) (d : Result) : Result :=
  {| file := file d; filename := filename d; exists_ := b;
     readable := readable d; size := size d; error := error d |}.
Definition set_readable (b : bool) (d : Result) : Result :=
  {| file := file d; filename := filename d; exists_ := exists_ d;
     readable := b; size := size d; error := error d |}.
Definition set_size (n : Z) (d : Result) : Result :=
  {| file := file d; filename := filename d; exists_ := exists_ d;
     readable := readable d; size := n; error := error d |}.
Definition set_error (e : option pystr) (d : Result) : Result :=
  {| file := file d; filename := filename d; exists_ := exists_ d;
     readable := readable d; size := size d; error := e |}.

(** ** Statements over the result dict *)

Module Stmt.

(** How a statement ends: control falls through with a value, the
    function returns, or an exception is on its way up. *)
Inductive flow (A : Type) :=
| Next (a : A)
| Return (v : Result)
| Raise (e : exn).
Arguments Next {A} a.
Arguments Return {A} v.
Arguments Raise {A} e.

Definition M (A : Type) : Type := Result → flow A * Result.

Definition pure {A} (a : A) : M A := λ d, (Next a, d).

Definition bind {A B} (m : M A) (k : A → M B) : M B :=
  λ d, match m d with
       | (Next a, d') => k a d'
       | (Return v, d') => (Return v, d')
       | (Raise e, d') => (Raise e, d')
       end.

(** A library call: its exception, if any, is raised here. *)
Definition call {A} (o : outcome A) : M A :=
  λ d, match o with
       | Ok a => (Next a, d)
       | Raised e => (Raise e, d)
       end.

(** [result[k] = v]. *)
Definition assign (f : Result → Result) : M unit := λ d, (Next tt, f d).

(** [return result]. *)
Definition return_result {A} : M A := λ d, (Return d, d).

(** [if c: body]. *)
Definition when_ (c : bool) (body : M unit) : M unit :=
  if c then body else pure tt.

(** [try: body / except Exception as e: handler e].  The handler runs on
    the dict as the body left it. *)
Definition try_except {A} (body : M A) (handler : exn → M A) : M A :=
  λ d, match body d with
       | (Raise e, d') => handler e d'
       | r => r
       end.

(** Running a function body that cannot fall off its end. *)
Definition call_function (body : M Empty_set) (d : Result) : outcome Result :=
  match body d with
  | (Next a, _) => match a with end
  | (Return v, _) => Ok v
  | (Raise e, _) => Raised e
  end.

End Stmt.

Declare Scope stmt_scope.
Delimit Scope stmt_scope with stmt.
Notation "x <- m1 ;; m2" := (Stmt.bind m1 (λ x, m2))
  (at level 100, m1 at next level, right associativity) : stmt_scope.
Notation "m1 ;; m2" := (Stmt.bind m1 (λ _, m2))
  (at level 100, right associativity) : stmt_scope.

(** ** [FileChecker.check_file] (lines 55-93) *)

Definition new_result (os : OS) (filepath : pystr) : Result :=
  {| file := filepath; filename := os_path_basename os filepath;
     exists_ := false; readable := false; size := 0; error := None |}.

Definition check_file (os : OS) (filepath : pystr) : outcome Result :=
  Stmt.call_function
    (Stmt.try_except
       (Stmt.when_ (negb (os_path_exists os filepath))
          (Stmt.assign (set_error (Some msg_not_exist)) ;;
           Stmt.return_result) ;;
        Stmt.assign (set_exists true) ;;
        sz <- Stmt.call (os_path_getsize os filepath) ;;
        Stmt.assign (set_size sz) ;;
        Stmt.when_ (sz =? 0)
          (Stmt.assign (set_error (Some msg_empty)) ;;
           Stmt.return_result) ;;
        Stmt.try_except
          (Stmt.call (open_rb_read os filepath (Z.min 4096 sz)) ;;
           Stmt.assign (set_readable true))
          (λ e, if is_PermissionError e
                then Stmt.assign (set_error (Some msg_permission))
                else Stmt.assign
                       (set_error (Some (msg_read_failed ++ take 50 (str_e e))))))
       (λ e, Stmt.assign
               (set_error (Some (msg_check_error ++ take 50 (str_e e))))) ;;
     Stmt.return_result)%stmt
    (new_result os filepath).

(** ** The shared state of a [FileChecker] and of one batch *)

Record FileChecker := {
  max_workers : Z;
  results : list Result;
  total_files : Z;
  processed : Z;
  start_time : option Z
}.

(** [FileChecker(max_workers)], lines 47-53. *)
Definition new_checker (mw : Z) : FileChecker :=
  {| max_workers := mw; results := []; total_files := 0; processed := 0;
     start_time := None |}.

(** Where a worker thread stands in [worker] (lines 95-123). *)
Inductive wpc :=
| WGet                                 (* 99: file_queue.get_nowait() *)
| WCheck (filepath : pystr)            (* 104: self.check_file(filepath) *)
| WAcquire (result : Result)           (* 106: with self.lock, not yet held *)
| WAppend (result : Result)            (* 107: self.results.append(result) *)
| WIncrRead (result : Result)          (* 108: read of self.processed *)
| WIncrWrite (result : Result) (v : Z) (* 108: self.processed = v + 1 *)
| WProgress (result : Result)          (* 111-121, then the lock is released *)
| WTaskDone                            (* 123: file_queue.task_done() *)
| WExit.                               (* the thread has ended *)

(** Where the main thread stands in [check_batch] (lines 145-158). *)
Inductive mpc :=
| MSpawn               (* 145-149: the loop that starts the threads *)
| MJoining (i : nat)   (* 152-153: t.join() on the i-th thread *)
| MReturned.           (* 158: return self.results *)

Record Run := {
  self : FileChecker;
  lock : option nat;          (* the thread inside [with self.lock], if any *)
  file_queue : list pystr;
  threads : list wpc;
  nrange : nat;               (* range(min(self.max_workers, self.total_files)) *)
  mainpc : mpc;
  checked : list pystr        (* the calls of check_file so far, in order *)
}.

Definition in_critical (pc : wpc) : Prop :=
  match pc with
  | WAppend _ | WIncrRead _ | WIncrWrite _ _ | WProgress _ => True
  | _ => False
  end.

Definition set_results (rs : list Result) (c : FileChecker) : FileChecker :=
  {| max_workers := max_workers c; results := rs;
     total_files := total_files c; processed := processed c;
     start_time := start_time c |}.
Definition set_processed (n : Z) (c : FileChecker) : FileChecker :=
  {| max_workers := max_workers c; results := results c;
     total_files := total_files c; processed := n;
     start_time := start_time c |}.

Definition with_self (f : FileChecker → FileChecker) (st : Run) : Run :=
  {| self := f (self st); lock := lock st; file_queue := file_queue st;
     threads := threads st; nrange := nrange st; mainpc := mainpc st;
     checked := checked st |}.
Definition with_lock (l : option nat) (st : Run) : Run :=
  {| self := self st; lock := l; file_queue := file_queue st;
     threads := threads st; nrange := nrange st; mainpc := mainpc st;
     checked := checked st |}.
Definition with_queue (q : list pystr) (st : Run) : Run :=
  {| self := self st; lock := lock st; file_queue := q;
     threads := threads st; nrange := nrange st; mainpc := mainpc st;
     checked := checked st |}.
Definition with_threads (ts : list wpc) (st : Run) : Run :=
  {| self := self st; lock := lock st; file_queue := file_queue st;
     threads := ts; nrange := nrange st; mainpc := mainpc st;
     checked := checked st |}.
Definition with_mainpc (m : mpc) (st : Run) : Run :=
  {| self := self st; lock := lock st; file_queue := file_queue st;
     threads := threads st; nrange := nrange st; mainpc := m;
     checked := checked st |}.
Definition with_checked (ps : list pystr) (st : Run) : Run :=
  {| self := self st; lock := lock st; file_queue := file_queue st;
     threads := threads st; nrange := nrange st; mainpc := mainpc st;
     checked := ps |}.

(** Thread [t] moves on to [pc]. *)
Definition goto (t : nat) (pc : wpc) (st : Run) : Run :=
  with_threads (<[t:=pc]> (threads st)) st.

(** ** [FileChecker.worker]: one atomic step of thread [t] standing at [pc]

    [None] means the thread cannot move: it has ended, or it waits for the
    lock.  [file_queue.task_done()] only decrements the queue's count of
    unfinished tasks, which nothing in the program reads.  An exception
    that nothing catches ends the thread, and the others go on. *)
Definition worker_step (os : OS) (t : nat) (pc : wpc) (st : Run) : option Run :=
  match pc with
  | WGet =>
      match file_queue st with
      | [] => Some (goto t WExit st)                        (* Empty: break *)
      | filepath :: q => Some (goto t (WCheck filepath) (with_queue q st))
      end
  | WCheck filepath =>
      let st' := with_checked (checked st ++ [filepath]) st in
      match check_file os filepath with
      | Ok result => Some (goto t (WAcquire result) st')
      | Raised _ => Some (goto t WExit st')     (* uncaught: the thread dies *)
      end
  | WAcquire result =>
      match lock st with
      | None => Some (goto t (WAppend result) (with_lock (Some t) st))
      | Some _ => None
      end
  | WAppend result =>
      Some (goto t (WIncrRead result)
              (with_self (λ c, set_results (results c ++ [result]) c) st))
  | WIncrRead result =>
      Some (goto t (WIncrWrite result (processed (self st))) st)
  | WIncrWrite result v =>
      Some (goto t (WProgress result) (with_self (set_processed (v + 1)) st))
  | WProgress result =>
      (* self.processed / self.total_files raises ZeroDivisionError on 0,
         and the write of lines 119-121 may raise: either ends the thread;
         leaving the with block releases the lock in every case *)
      if total_files (self st) =? 0
      then Some (goto t WExit (with_lock None st))
      else
        match stdout_write os (processed (self st)) (total_files (self st))
                (readable result) (take 30 (filename result)) with
        | Ok _ => Some (goto t WTaskDone (with_lock None st))
        | Raised _ => Some (goto t WExit (with_lock None st))
        end
  | WTaskDone => Some (goto t WGet st)
  | WExit => None
  end.

(** ** [FileChecker.check_batch]: one atomic step of the main thread *)
Definition main_step (st : Run) : option Run :=
  match mainpc st with
  | MSpawn =>
      if decide (length (threads st) < nrange st)%nat
      then Some (with_threads (threads st ++ [WGet]) st)    (* t.start() *)
      else Some (with_mainpc (MJoining 0) st)
  | MJoining i =>
      match threads st !! i with
      | None => Some (with_mainpc MReturned st)
      | Some WExit => Some (with_mainpc (MJoining (S i)) st)
      | Some _ => None                                      (* join blocks *)
      end
  | MReturned => None
  end.

Inductive actor := Main | Worker (t : nat).

Definition step (os : OS) (a : actor) (st : Run) : option Run :=
  match a with
  | Main => main_step st
  | Worker t =>
      match threads st !! t with
      | Some pc => worker_step os t pc st
      | None => None
      end
  end.

(** The actors that can move in [st]. *)
Definition enabled (os : OS) (st : Run) : list actor :=
  filter (λ a, is_Some (step os a st))
    (Main :: (Worker <$> seq 0 (length (threads st)))).

(** A scheduler names, at every step, one of the actors that can move. *)
Definition scheduler : Type := nat → nat.

Definition pick {A} (k : nat) (l : list A) : option A :=
  l !! (k mod length l)%nat.

Fixpoint exec (os : OS) (fuel : nat) (sched : scheduler) (st : Run) : Run :=
  match fuel with
  | O => st
  | S fuel' =>
      match pick (sched O) (enabled os st) with
      | Some a =>
          match step os a st with
          | Some st' => exec os fuel' (λ k, sched (S k)) st'
          | None => st
          end
      | None => st
      end
  end.

(** [file_queue.put(filepath)] for every path, lines 139-141. *)
Definition queue_put (q : list pystr) (filepath : pystr) : list pystr :=
  q ++ [filepath].

(** Lines 130-141: the state in which the spawning loop starts. *)
Definition init_run (now : Z) (c : FileChecker) (file_list : list pystr) : Run :=
  let total := Z.of_nat (length file_list) in
  {| self := {| max_workers := max_workers c; results := [];
                total_files := total; processed := 0;
                start_time := Some now |};
     lock := None;
     file_queue := foldl queue_put [] file_list;
     threads := [];
     nrange := Z.to_nat (Z.min (max_workers c) total);
     mainpc := MSpawn;
     checked := [] |}.

(** Steps left, at most, before the main thread returns. *)
Definition wrank (pc : wpc) : nat :=
  match pc with
  | WGet => 1 | WCheck _ => 9 | WAcquire _ => 8 | WAppend _ => 7
  | WIncrRead _ => 6 | WIncrWrite _ _ => 5 | WProgress _ => 4
  | WTaskDone => 2 | WExit => 0
  end.

Definition mrank (st : Run) : nat :=
  match mainpc st with
  | MSpawn => 3 * (nrange st - length (threads st)) + length (threads st) + 3
  | MJoining i => (length (threads st) - i) + 1
  | MReturned => 0
  end.

Definition measure (st : Run) : nat :=
  9 * length (file_queue st) + sum_list_with wrank (threads st) + mrank st.

(** The state in which a batch over a non-empty list ends. *)
Definition batch_end (os : OS) (sched : scheduler) (now : Z)
    (c : FileChecker) (file_list : list pystr) : Run :=
  exec os (measure (init_run now c file_list)) sched
    (init_run now c file_list).

(** [check_batch]: the list it returns ([None] if the main thread had not
    returned when the fuel ran out, which [measure] excludes) and the
    checker as the call leaves it.  [now] is the reading of [time.time()]. *)
Definition check_batch (os : OS) (sched : scheduler) (now : Z)
    (c : FileChecker) (file_list : list pystr)
    : option (list Result) * FileChecker :=
  match file_list with
  | [] => (Some [], c)
  | _ :: _ =>
      let st := batch_end os sched now c file_list in
      (match mainpc st with
       | MReturned => Some (results (self st))
       | _ => None
       end, self st)
  end.

(** The calls of [check_file] a batch makes, in order. *)
Definition check_batch_calls (os : OS) (sched : scheduler) (now : Z)
    (c : FileChecker) (file_list : list pystr) : list pystr :=
  match file_list with
  | [] => []
  | _ :: _ => checked (batch_end os sched now c file_list)
  end.

(** [total_time = time.time() - checker.start_time], as every caller in
    [main] computes it (line 406); [None] when [start_time] is [None], where
    Python raises TypeError. *)
Definition total_time (now : Z) (c : FileChecker) : option Z :=
  (λ t0, now - t0) <$> start_time c.

(** [check_file] as a function to results, for the places where its value
    is needed ([check_file_returns] shows it never takes the default). *)
Definition check_file_value (os : OS) (filepath : pystr) : Result :=
  match check_file os filepath with
  | Ok r => r
  | Raised _ => new_result os filepath
  end.

(** Some step of the check failed: the path is not there, the size query
    raised, or opening and reading the head of a non-empty file raised. *)
Definition check_fails (os : OS) (filepath : pystr) : bool :=
  negb (os_path_exists os filepath) ||
  match os_path_getsize os filepath with
  | Raised _ => true
  | Ok sz =>
      negb (sz =? 0) &&
      match open_rb_read os filepath (Z.min 4096 sz) with
      | Raised _ => true
      | Ok _ => false
      end
  end.

(** ** A small file system to run the definitions on

    [missing.txt] is absent, [empty.bin] has no bytes, [ok.txt] has 100
    readable bytes, [locked.txt] cannot be opened, reading [broken.dat]
    fails, and [gone.tmp] vanishes before its size is taken. *)
Module Demo.

(** A console in UTF-8: it shows every name but those that hold a
    surrogate code point (U+D800 to U+DFFF), which [os.walk] and
    [os.listdir] give for file names that are not valid in the encoding of
    the file system. *)
Definition surrogate (ch : N) : bool := (55296 <=? ch)%N && (ch <=? 57343)%N.

Definition utf8_write (n total : Z) (mark : bool) (name : pystr)
    : outcome unit :=
  if existsb surrogate name
  then Raised (Exn OtherException
                 (str "'utf-8' codec can't encode character: surrogates not allowed"))
  else Ok tt.

Definition missing : pystr := str "missing.txt".
Definition empty : pystr := str "empty.bin".
Definition ok : pystr := str "ok.txt".
Definition locked : pystr := str "locked.txt".
Definition broken : pystr := str "broken.dat".
Definition gone : pystr := str "gone.tmp".

Definition eacces : exn :=
  Exn PermissionError (str "[Errno 13] Permission denied: 'locked.txt'").
Definition eio : exn :=
  Exn OtherException
    (str "[Errno 5] Input/output error while reading the first block of 'broken.dat'").
Definition enoent : exn :=
  Exn OtherException (str "[Errno 2] No such file or directory: 'gone.tmp'").

Definition os : OS :=
  {| os_path_basename := λ p, p;
     os_path_exists := λ p, bool_decide (p ∈ [empty; ok; locked; broken; gone]);
     os_path_getsize := λ p,
       if bool_decide (p = empty) then Ok 0
       else if bool_decide (p = gone) then Raised enoent
       else if bool_decide (p = broken) then Ok 5000
       else Ok 100;
     open_rb_read := λ p n,
       if bool_decide (p = locked) then Raised eacces
       else if bool_decide (p = broken) then Raised eio
       else Ok tt;
     stdout_write := utf8_write |}.

(** A second file system: every path is a readable file of 100 bytes, and
    [bad] has a name the console cannot show ("bad", U+D800, ".txt"). *)
Definition bad : pystr := str "bad" ++ [55296%N] ++ str ".txt".

Definition plain : OS :=
  {| os_path_basename := λ p, p;
     os_path_exists := λ _, true;
     os_path_getsize := λ _, Ok 100;
     open_rb_read := λ _ _, Ok tt;
     stdout_write := utf8_write |}.

Definition bad_then_ok : list pystr := [bad; ok].

Definition files : list pystr := [missing; empty; ok; locked].

(** Two schedulers: always the first actor that can move, and a
    round robin over them. *)
Definition first_ready : scheduler := λ _, O.
Definition round_robin : scheduler := λ k, k.
Definition shuffled : scheduler := λ k, (k * k + 3)%nat.

(** A state some steps into a batch over [files] with two workers. *)
Definition midway : Run :=
  exec os 10 round_robin (init_run 7 (new_checker 2) files).

(** A checker that has already run a batch, started at time 0. *)
Definition used : FileChecker :=
  snd (check_batch os first_ready 0 (new_checker 4) [broken; gone]).

End Demo.

(** The five ways out of [check_file]; they cover every file system. *)
Variant check_file_case (os : OS) (filepath : pystr) : Result → Prop :=
| CaseNotExists :
    os_path_exists os filepath = false →
    check_file_case os filepath
      (set_error (Some msg_not_exist) (new_result os filepath))
| CaseGetsizeRaises e :
    os_path_exists os filepath = true →
    os_path_getsize os filepath = Raised e →
    check_file_case os filepath
      (set_error (Some (msg_check_error ++ take 50 (str_e e)))
         (set_exists true (new_result os filepath)))
| CaseEmpty :
    os_path_exists os filepath = true →
    os_path_getsize os filepath = Ok 0 →
    check_file_case os filepath
      (set_error (Some msg_empty)
         (set_size 0 (set_exists true (new_result os filepath))))
| CaseReadOk sz u :
    os_path_exists os filepath = true →
    os_path_getsize os filepath = Ok sz →
    sz ≠ 0 →
    open_rb_read os filepath (Z.min 4096 sz) = Ok u →
    check_file_case os filepath
      (set_readable true
         (set_size sz (set_exists true (new_result os filepath))))
| CaseReadRaises sz e :
    os_path_exists os filepath = true →
    os_path_getsize os filepath = Ok sz →
    sz ≠ 0 →
    open_rb_read os filepath (Z.min 4096 sz) = Raised e →
    check_file_case os filepath
      (set_error
         (Some (if is_PermissionError e then msg_permission
                else msg_read_failed ++ take 50 (str_e e)))
         (set_size sz (set_exists true (new_result os filepath)))).

(** ** Reachable states and what holds in all of them *)

(** Any actor moves. *)
Definition Step (os : OS) (st st' : Run) : Prop :=
  ∃ a, step os a st = Some st'.

Definition reachable (os : OS) (st0 st : Run) : Prop := rtc (Step os) st0 st.

(** The results a thread holds and has not appended yet. *)
Definition inflight (os : OS) (pc : wpc) : list Result :=
  match pc with
  | WCheck filepath => [check_file_value os filepath]
  | WAcquire result | WAppend result => [result]
  | _ => []
  end.

(** The path a thread holds and has not checked yet. *)
Definition unchecked (pc : wpc) : list pystr :=
  match pc with
  | WCheck filepath => [filepath]
  | _ => []
  end.

(** How [processed] stands to [results] while the lock holder is at [pc]. *)
Definition counter_at (c : FileChecker) (pc : wpc) : Prop :=
  match pc with
  | WIncrRead _ => processed c + 1 = Z.of_nat (length (results c))
  | WIncrWrite _ v =>
      v = processed c ∧ processed c + 1 = Z.of_nat (length (results c))
  | _ => processed c = Z.of_nat (length (results c))
  end.

Record Inv (os : OS) (file_list : list pystr) (st : Run) : Prop := {
  inv_total : total_files (self st) = Z.of_nat (length file_list);
  inv_nonempty : file_list ≠ [];
  inv_mutex : ∀ t pc,
    threads st !! t = Some pc → in_critical pc → lock st = Some t;
  inv_lock :
    match lock st with
    | None => processed (self st) = Z.of_nat (length (results (self st)))
    | Some t =>
        ∃ pc, threads st !! t = Some pc ∧ in_critical pc ∧
              counter_at (self st) pc
    end;
  inv_results :
    results (self st) ++ mjoin (inflight os <$> threads st) ++
      (check_file_value os <$> file_queue st)
    ≡ₚ check_file_value os <$> file_list;
  inv_checked :
    checked st ++ mjoin (unchecked <$> threads st) ++ file_queue st
    ≡ₚ file_list;
  inv_spawned : (length (threads st) ≤ nrange st)%nat;
  inv_main :
    match mainpc st with
    | MSpawn => True
    | MJoining i =>
        length (threads st) = nrange st ∧
        ∀ j, (j < i)%nat → (j < length (threads st))%nat →
             threads st !! j = Some WExit
    | MReturned =>
        length (threads st) = nrange st ∧
        ∀ pc, pc ∈ threads st → pc = WExit
    end
}.

(** * The rest of the program *)

(** ** The progress line of [worker] (lines 111-120) *)

(* "█" and "░" (line 117), "✓" and "✗" (line 112) *)
Definition full_block : N := 9608%N.
Definition light_shade : N := 9617%N.
Definition check_mark : pystr := [10003%N].
Definition ballot_x : pystr := [10007%N].

(** [c * n] for a one-character string: empty when [n <= 0]. *)
Definition py_repeat (ch : N) (n : Z) : pystr := replicate (Z.to_nat n) ch.

Definition bar_length : Z := 30.

(** Line 116; [//] on Python integers is the floor division of [Z]. *)
Definition bar_filled (n total : Z) : Z := bar_length * n / total.

(** What the line of 119-120 shows, the percentage apart (it is a float). *)
Record ProgressLine := {
  pl_bar : pystr;
  pl_processed : Z;
  pl_total : Z;
  pl_status : pystr;
  pl_filename : pystr
}.

(** Lines 111-117 on the checker [c], for the result just recorded. *)
Definition progress_line (c : FileChecker) (result : Result)
    : outcome ProgressLine :=
  if total_files c =? 0
  then Raised (Exn OtherException (str "division by zero"))
  else
    let filled := bar_filled (processed c) (total_files c) in
    Ok {| pl_bar := py_repeat full_block filled ++
                    py_repeat light_shade (bar_length - filled);
          pl_processed := processed c;
          pl_total := total_files c;
          pl_status := if readable result then check_mark else ballot_x;
          pl_filename := take 30 (filename result) |}.

(** The result a thread has appended and is still counting or showing. *)
Definition recording (pc : wpc) : option Result :=
  match pc with
  | WIncrRead r | WIncrWrite r _ | WProgress r => Some r
  | _ => None
  end.

(** Every thread that has appended its result finds it last in
    [results]. *)
Definition last_recorded (st : Run) : Prop :=
  ∀ t pc r, threads st !! t = Some pc → recording pc = Some r →
            last (results (self st)) = Some r.

(** Results, results on their way and paths still queued, read in this
    order, are the input in its order. *)
Definition in_order (os : OS) (file_list : list pystr) (st : Run) : Prop :=
  results (self st) ++ mjoin (inflight os <$> threads st) ++
    (check_file_value os <$> file_queue st)
  = check_file_value os <$> file_list ∧
  checked st ++ mjoin (unchecked <$> threads st) ++ file_queue st
  = file_list.

(** ** The console and the end of a worker *)

(** Can the console show every progress line that a batch over
    [file_list] may write: the line of each path at each count from 1 to
    the number of paths? *)
Definition console_shows (os : OS) (file_list : list pystr) : bool :=
  let total := Z.of_nat (length file_list) in
  forallb
    (λ filepath,
       let result := check_file_value os filepath in
       forallb
         (λ n, match stdout_write os n total (readable result)
                       (take 30 (filename result)) with
               | Ok _ => true
               | Raised _ => false
               end)
         (seqZ 1 total))
    file_list.

(** No thread has ended while paths were left. *)
Definition drained (st : Run) : Prop :=
  WExit ∈ threads st → file_queue st = [].

(** A thread that has ended either found the queue empty or had recorded
    a result. *)
Definition ended_after_recording (st : Run) : Prop :=
  WExit ∈ threads st → file_queue st = [] ∨ results (self st) ≠ [].

(** ** The calls of [check_batch] in [main] (lines 400-406 and the same
    lines at 450-453, 477-480 and 506-514) *)

Definition set_max_workers (mw : Z) (c : FileChecker) : FileChecker :=
  {| max_workers := mw; results := results c;
     total_files := total_files c; processed := processed c;
     start_time := start_time c |}.

(** [if file_list:] the checker takes the thread count of the settings,
    runs the batch at time [now], and the elapsed time is taken at time
    [later].  [None]: the list was empty and nothing was called. *)
Definition run_from_main (os : OS) (sched : scheduler) (now later : Z)
    (settings_threads : Z) (checker : FileChecker) (file_list : list pystr)
    : option (option (list Result) * option Z * FileChecker) :=
  match file_list with
  | [] => None
  | _ :: _ =>
      let checker := set_max_workers settings_threads checker in
      let '(results, checker) := check_batch os sched now checker file_list in
      Some (results, total_time later checker, checker)
  end.

(** ** Library functions on strings and on the file system

    The methods of [str] and the functions of [os] and [os.path] that the
    menu code calls.  They are parameters: nothing is assumed of them but
    their types. *)
Record PyStr := {
  str_strip : pystr → pystr;
  str_lower : pystr → pystr;
  str_split : pystr → list pystr;
  py_int : pystr → outcome Z
}.

Record FS := {
  os_path_isdir : pystr → bool;
  os_path_isfile : pystr → bool;
  os_path_join : pystr → pystr → pystr;
  os_path_splitext : pystr → pystr * pystr;
  os_walk : pystr → list (pystr * list pystr * list pystr);
  os_listdir : pystr → outcome (list pystr);
  open_r_lines : pystr → outcome (list pystr)
}.

(** Truth value of a string, and of an optional list ([None] and [[]] are
    false). *)
Definition str_true (s : pystr) : bool :=
  match s with [] => false | _ :: _ => true end.

Definition list_true {A} (l : option (list A)) : bool :=
  match l with Some (_ :: _) => true | _ => false end.

(** ** [scan_directory] (lines 161-195) *)

(** Lines 175-180 and 187-192: [full_path] joins the list unless a filter
    is given and the lowered extension of [name] is not in it. *)
Definition scan_keep (lib : PyStr) (fs : FS) (extensions : option (list pystr))
    (name full_path : pystr) (file_list : list pystr) : list pystr :=
  if list_true extensions then
    let ext := str_lower lib (snd (os_path_splitext fs name)) in
    if bool_decide (ext ∈ str_lower lib <$> default [] extensions)
    then file_list ++ [full_path]
    else file_list
  else file_list ++ [full_path].

Definition scan_directory (lib : PyStr) (fs : FS) (directory : pystr)
    (recursive : bool) (extensions : option (list pystr))
    : outcome (list pystr) :=
  if negb (os_path_isdir fs directory) then Ok []
  else if recursive then
    Ok (foldl
          (λ file_list '(root, _, files),
             foldl (λ file_list file,
                      scan_keep lib fs extensions file
                        (os_path_join fs root file) file_list)
                   file_list files)
          [] (os_walk fs directory))
  else
    match os_listdir fs directory with
    | Raised e => Raised e
    | Ok items =>
        Ok (foldl
              (λ file_list item,
                 let full_path := os_path_join fs directory item in
                 if os_path_isfile fs full_path
                 then scan_keep lib fs extensions item full_path file_list
                 else file_list)
              [] items)
    end.

(** ** [load_file_list] (lines 198-215) *)

(* line.startswith('#') *)
Definition startswith_hash (line : pystr) : bool :=
  match line with
  | 35%N :: _ => true
  | _ => false
  end.

Definition load_file_list (lib : PyStr) (os : OS) (fs : FS) (filename : pystr)
    : outcome (list pystr) :=
  if negb (os_path_exists os filename) then Ok []
  else
    match open_r_lines fs filename with
    | Raised e => Raised e
    | Ok lines =>
        Ok (foldl
              (λ file_list line,
                 let line := str_strip lib line in
                 if str_true line && negb (startswith_hash line) then
                   if os_path_exists os line
                   then file_list ++ [line]
                   else file_list
                 else file_list)
              [] lines)
    end.

(** ** [show_results_summary] (lines 218-263): the numbers and the entries
    it prints *)

(* sum(1 for r in results if r['readable']), lines 224 and 276 *)
Definition count_good (results : list Result) : Z :=
  Z.of_nat (length (filter (λ r, readable r = true) results)).

Definition count_bad (results : list Result) : Z :=
  Z.of_nat (length results) - count_good results.

(** The dict [errors] of line 244: its keys in the order of their first
    insertion, as a Python dict keeps them. *)
Definition ErrorGroups : Type := list (pystr * list Result).

(** Lines 248-250: [errors[error_type].append(result)], after
    [errors[error_type] = []] if the key is new. *)
Fixpoint errors_append (error_type : pystr) (result : Result)
    (errors : ErrorGroups) : ErrorGroups :=
  match errors with
  | [] => [(error_type, [result])]
  | (k, files) :: errors' =>
      if decide (k = error_type)
      then (k, files ++ [result]) :: errors'
      else (k, files) :: errors_append error_type result errors'
  end.

(** Lines 246-250 for one result. *)
Definition errors_step (errors : ErrorGroups) (result : Result) : ErrorGroups :=
  match error result with
  | Some error_type =>
      if negb (readable result) && str_true error_type
      then errors_append error_type result errors
      else errors
  | None => errors
  end.

(** Lines 244-250. *)
Definition group_errors (results : list Result) : ErrorGroups :=
  foldl errors_step [] results.

(** Lines 254-257: the entries shown under a heading and, if any are left,
    how many. *)
Definition shown_files (files : list Result) : list Result := take 10 files.

Definition hidden_files (files : list Result) : option Z :=
  if 10 <? Z.of_nat (length files)
  then Some (Z.of_nat (length files) - 10)
  else None.

(** ** [get_settings] (lines 320-358) *)

(** What a call of [input()] gives: a line, or one of the two exceptions
    it raises. *)
Inductive input_event :=
| Line (s : pystr)
| KeyboardInterrupt
| EOFError.

Module Settings.

Record t := {
  threads : Z;
  extensions : option (list pystr);
  recursive : bool
}.

(** Lines 322-326, and 364-368 in [main]. *)
Definition default : t :=
  {| threads := 4; extensions := None; recursive := true |}.

Definition set_threads (n : Z) (s : t) : t :=
  {| threads := n; extensions := extensions s; recursive := recursive s |}.
Definition set_extensions (e : option (list pystr)) (s : t) : t :=
  {| threads := threads s; extensions := e; recursive := recursive s |}.
Definition set_recursive (b : bool) (s : t) : t :=
  {| threads := threads s; extensions := extensions s; recursive := b |}.

End Settings.

(** Lines 334-343: the answer to the first prompt. *)
Definition read_threads (lib : PyStr) (answer : pystr) (s : Settings.t)
    : Settings.t :=
  let threads := str_strip lib answer in
  if str_true threads then
    match py_int lib threads with
    | Ok threads =>
        if (1 <=? threads) && (threads <=? 16)
        then Settings.set_threads threads s
        else s
    | Raised _ => s
    end
  else s.

(** Lines 346-348: the answer to the second prompt. *)
Definition read_extensions (lib : PyStr) (answer : pystr) (s : Settings.t)
    : Settings.t :=
  let ext_input := str_strip lib answer in
  if str_true ext_input
  then Settings.set_extensions (Some (str_split lib ext_input)) s
  else s.

(** Lines 351-352: the answer to the third prompt. *)
Definition read_recursive (lib : PyStr) (answer : pystr) (s : Settings.t)
    : Settings.t :=
  let recursive := str_lower lib (str_strip lib answer) in
  Settings.set_recursive (negb (bool_decide (recursive = str "n"))) s.

(** The three prompts in turn.  [KeyboardInterrupt] ends the dialogue with
    the settings as they stand (line 355); [EOFError] is not caught. *)
Definition get_settings (lib : PyStr) (in1 in2 in3 : input_event)
    : outcome Settings.t :=
  let eof := Raised (Exn OtherException (str "EOF when reading a line")) in
  let s := Settings.default in
  match in1 with
  | KeyboardInterrupt => Ok s
  | EOFError => eof
  | Line a1 =>
      let s := read_threads lib a1 s in
      match in2 with
      | KeyboardInterrupt => Ok s
      | EOFError => eof
      | Line a2 =>
          let s := read_extensions lib a2 s in
          match in3 with
          | KeyboardInterrupt => Ok s
          | EOFError => eof
          | Line a3 => Ok (read_recursive lib a3 s)
          end
      end
  end.

(** An ASCII rendering of the string methods, to run the menu code on:
    [strip] and [split] on spaces, [lower] on A-Z, [int] on decimal
    digits. *)
Module DemoLib.

Fixpoint lstrip (s : pystr) : pystr :=
  match s with
  | 32%N :: s' => lstrip s'
  | _ => s
  end.

Definition strip (s : pystr) : pystr := reverse (lstrip (reverse (lstrip s))).

Definition lower (s : pystr) : pystr :=
  (λ ch, if (65 <=? ch)%N && (ch <=? 90)%N then (ch + 32)%N else ch) <$> s.

Fixpoint split_from (word : pystr) (s : pystr) : list pystr :=
  match s with
  | [] => if str_true word then [word] else []
  | ch :: s' =>
      if (ch =? 32)%N
      then (if str_true word then [word] else []) ++ split_from [] s'
      else split_from (word ++ [ch]) s'
  end.

Definition digits (s : pystr) : option Z :=
  foldl (λ acc ch,
           match acc with
           | Some n =>
               if (48 <=? ch)%N && (ch <=? 57)%N
               then Some (10 * n + (Z.of_N ch - 48))
               else None
           | None => None
           end)
        (Some 0) s.

Definition int (s : pystr) : outcome Z :=
  match s, digits s with
  | _ :: _, Some n => Ok n
  | _, _ => Raised (Exn OtherException (str "invalid literal for int()"))
  end.

Definition lib : PyStr :=
  {| str_strip := strip; str_lower := lower; str_split := split_from [];
     py_int := int |}.

(** A directory [data] with [a.txt], [B.TXT] and [c.pdf], and a
    subdirectory [sub] with [d.txt]; a list file [list.txt]. *)
Definition join (a b : pystr) : pystr := a ++ str "/" ++ b.

Fixpoint ext_from (ext : pystr) (s : pystr) : pystr :=
  match s with
  | [] => ext
  | ch :: s' => if (ch =? 46)%N then ext_from (ch :: s') s' else ext_from ext s'
  end.

Definition fs : FS :=
  {| os_path_isdir := λ p, bool_decide (p ∈ [str "data"; str "data/sub"]);
     os_path_isfile := λ p,
       bool_decide (p ∈ [str "data/a.txt"; str "data/B.TXT";
                         str "data/c.pdf"; str "data/sub/d.txt"]);
     os_path_join := join;
     os_path_splitext := λ p, (p, ext_from [] p);
     os_walk := λ p,
       if bool_decide (p = str "data")
       then [(str "data", [str "sub"],
              [str "a.txt"; str "B.TXT"; str "c.pdf"]);
             (str "data/sub", [], [str "d.txt"])]
       else [];
     os_listdir := λ p,
       if bool_decide (p = str "data")
       then Ok [str "a.txt"; str "B.TXT"; str "c.pdf"; str "sub"]
       else Raised (Exn OtherException (str "[Errno 20] Not a directory"));
     open_r_lines := λ p,
       Ok [str "# files to check"; str "  ok.txt  "; str "";
           str "missing.txt"; str "locked.txt"] |}.

(** [Demo.os] with the list file [list.txt] added. *)
Definition os : OS :=
  {| os_path_basename := os_path_basename Demo.os;
     os_path_exists := λ p,
       bool_decide (p = str "list.txt") || os_path_exists Demo.os p;
     os_path_getsize := os_path_getsize Demo.os;
     open_rb_read := open_rb_read Demo.os;
     stdout_write := stdout_write Demo.os |}.

End DemoLib.

(** ** Notions used to state what the menu code computes *)

(** Does a file name pass the extension filter of [scan_directory]? *)
Definition scan_match (lib : PyStr) (fs : FS) (extensions : option (list pystr))
    (name : pystr) : bool :=
  if list_true extensions
  then bool_decide (str_lower lib (snd (os_path_splitext fs name))
                      ∈ str_lower lib <$> default [] extensions)
  else true.

(** Is a stripped line of the list file a path to keep? *)
Definition load_keep (os : OS) (line : pystr) : bool :=
  str_true line && negb (startswith_hash line) && os_path_exists os line.

(** [errors.get(error_type)]. *)
Fixpoint errors_get (error_type : pystr) (errors : ErrorGroups)
    : option (list Result) :=
  match errors with
  | [] => None
  | (k, files) :: errors' =>
      if decide (k = error_type) then Some files
      else errors_get error_type errors'
  end.

(** Is the result listed by [show_results_summary] under some heading
    (line 246)? *)
Definition is_listed (r : Result) : bool :=
  negb (readable r) &&
  match error r with Some e => str_true e | None => false end.

(** The entries a heading stands for: those shown and those announced as
    left. *)
Definition announced (files : list Result) : Z :=
  Z.of_nat (length (shown_files files)) + default 0 (hidden_files files).

Definition announced_total (errors : ErrorGroups) : Z :=
  foldr (λ g acc, announced (snd g) + acc) 0 errors.

(** Two more states of the demo batch: thread 0 showing its progress
    line, and thread 0 about to find the queue empty. *)
Module DemoRun.

Definition start : Run := init_run 7 (new_checker 2) Demo.files.
Definition showing : Run := exec Demo.os 11 Demo.round_robin start.
Definition draining : Run := exec Demo.os 30 Demo.round_robin start.

End DemoRun.

(** * Proofs *)

(** ** [check_file]: its five ways out *)

Section CheckFileCases.
Context (os : OS) (filepath : pystr).

Lemma check_file_not_exists :
  os_path_exists os filepath = false →
  check_file os filepath =
    Ok (set_error (Some msg_not_exist) (new_result os filepath)).
Proof.
  intros He. unfold check_file, Stmt.call_function, Stmt.try_except, Stmt.bind.
  rewrite He. reflexivity.
Qed.

Lemma check_file_getsize_raises e :
  os_path_exists os filepath = true →
  os_path_getsize os filepath = Raised e →
  check_file os filepath =
    Ok (set_error (Some (msg_check_error ++ take 50 (str_e e)))
          (set_exists true (new_result os filepath))).
Proof.
  intros He Hs. unfold check_file, Stmt.call_function, Stmt.try_except, Stmt.bind.
  rewrite He, Hs. reflexivity.
Qed.

Lemma check_file_empty :
  os_path_exists os filepath = true →
  os_path_getsize os filepath = Ok 0 →
  check_file os filepath =
    Ok (set_error (Some msg_empty)
          (set_size 0 (set_exists true (new_result os filepath)))).
Proof.
  intros He Hs. unfold check_file, Stmt.call_function, Stmt.try_except, Stmt.bind.
  rewrite He, Hs. reflexivity.
Qed.

Lemma check_file_read_ok sz u :
  os_path_exists os filepath = true →
  os_path_getsize os filepath = Ok sz →
  sz ≠ 0 →
  open_rb_read os filepath (Z.min 4096 sz) = Ok u →
  check_file os filepath =
    Ok (set_readable true
          (set_size sz (set_exists true (new_result os filepath)))).
Proof.
  intros He Hs Hz Hr.
  unfold check_file, Stmt.call_function, Stmt.try_except, Stmt.bind.
  rewrite He, Hs. simpl.
  destruct (Z.eqb_spec sz 0) as [->|_]; [done|]. simpl.
  rewrite Hr. reflexivity.
Qed.

Lemma check_file_read_raises sz e :
  os_path_exists os filepath = true →
  os_path_getsize os filepath = Ok sz →
  sz ≠ 0 →
  open_rb_read os filepath (Z.min 4096 sz) = Raised e →
  check_file os filepath =
    Ok (set_error
          (Some (if is_PermissionError e then msg_permission
                 else msg_read_failed ++ take 50 (str_e e)))
          (set_size sz (set_exists true (new_result os filepath)))).
Proof.
  intros He Hs Hz Hr.
  unfold check_file, Stmt.call_function, Stmt.try_except, Stmt.bind.
  rewrite He, Hs. simpl.
  destruct (Z.eqb_spec sz 0) as [->|_]; [done|]. simpl.
  rewrite Hr. simpl. destruct (is_PermissionError e); reflexivity.
Qed.

Lemma check_file_cases :
  ∃ r, check_file os filepath = Ok r ∧ check_file_case os filepath r.
Proof.
  destruct (os_path_exists os filepath) eqn:He.
  - destruct (os_path_getsize os filepath) as [sz|e] eqn:Hs.
    + destruct (decide (sz = 0)) as [->|Hz].
      * eexists; split; [by apply check_file_empty|by constructor].
      * destruct (open_rb_read os filepath (Z.min 4096 sz)) as [u|e] eqn:Hr.
        -- eexists; split; [by eapply check_file_read_ok|by econstructor].
        -- eexists; split; [by eapply check_file_read_raises|by econstructor].
    + eexists; split; [by apply check_file_getsize_raises|by constructor].
  - eexists; split; [by apply check_file_not_exists|by constructor].
Qed.

Lemma check_file_returns :
  check_file os filepath = Ok (check_file_value os filepath).
Proof.
  unfold check_file_value.
  destruct check_file_cases as (r & -> & _). reflexivity.
Qed.

End CheckFileCases.

(** ** [check_file] on the demo file system *)

Example check_file_missing :
  check_file Demo.os Demo.missing =
    Ok {| file := Demo.missing; filename := Demo.missing; exists_ := false;
          readable := false; size := 0; error := Some msg_not_exist |}.
Proof. reflexivity. Qed.

Example check_file_ok :
  check_file Demo.os Demo.ok =
    Ok {| file := Demo.ok; filename := Demo.ok; exists_ := true;
          readable := true; size := 100; error := None |}.
Proof. reflexivity. Qed.

Example check_file_broken :
  check_file Demo.os Demo.broken =
    Ok {| file := Demo.broken; filename := Demo.broken; exists_ := true;
          readable := false; size := 5000;
          error := Some (msg_read_failed ++
                         str "[Errno 5] Input/output error while reading the fir") |}.
Proof. reflexivity. Qed.

Example check_file_gone :
  check_file Demo.os Demo.gone =
    Ok {| file := Demo.gone; filename := Demo.gone; exists_ := true;
          readable := false; size := 0;
          error := Some (msg_check_error ++
                         str "[Errno 2] No such file or directory: 'gone.tmp'") |}.
Proof. reflexivity. Qed.

(** ** The contract of [check_file] *)

(** C2. For every path string, [check_file] returns a result and raises
    nothing: whenever the existence check, the size query or the open and
    read fails, the result carries an ['error'] and is not readable. *)
Theorem check_file_never_raises (os : OS) (filepath : pystr) :
  ∃ r, check_file os filepath = Ok r ∧
       file r = filepath ∧
       (check_fails os filepath = true →
        is_Some (error r) ∧ readable r = false).
Proof.
  destruct (check_file_cases os filepath) as (r & Hr & Hc).
  exists r. split; [done|]. unfold check_fails.
  destruct Hc as [He|e He Hs|He Hs|sz u He Hs Hz Ho|sz e He Hs Hz Ho];
    rewrite ?He, ?Hs; simpl; (split; [done|]).
  - eauto.
  - eauto.
  - done.
  - rewrite Ho. destruct (sz =? 0); done.
  - eauto.
Qed.

(** C3, as the code has it. For an existing file of size [sz > 0],
    [check_file] opens it and reads [min(4096, sz)] bytes.  If that
    succeeds the result is readable with no ['error']; if it raises
    [PermissionError] the ['error'] is the message of line 86; if it raises
    anything else the ['error'] is the prefix of line 88 followed by the
    first 50 characters of [str(e)]. *)
Theorem check_file_nonempty (os : OS) (filepath : pystr) (sz : Z) :
  os_path_exists os filepath = true →
  os_path_getsize os filepath = Ok sz →
  0 < sz →
  ∃ r, check_file os filepath = Ok r ∧
       exists_ r = true ∧ size r = sz ∧
       match open_rb_read os filepath (Z.min 4096 sz) with
       | Ok _ => readable r = true ∧ error r = None
       | Raised e =>
           readable r = false ∧
           error r = Some (if is_PermissionError e then msg_permission
                           else msg_read_failed ++ take 50 (str_e e)) ∧
           (is_PermissionError e = false →
            length (take 50 (str_e e)) ≤ 50)%nat
       end.
Proof.
  intros He Hs Hz.
  destruct (open_rb_read os filepath (Z.min 4096 sz)) as [u|e] eqn:Ho.
  - eexists. split; [eapply check_file_read_ok; eauto; lia|]. done.
  - eexists. split; [eapply check_file_read_raises; eauto; lia|].
    simpl. repeat split. intros _. rewrite length_take. lia.
Qed.

Lemma check_file_nonempty_witness :
  ∃ r, check_file Demo.os Demo.broken = Ok r ∧
       exists_ r = true ∧ size r = 5000 ∧
       match open_rb_read Demo.os Demo.broken (Z.min 4096 5000) with
       | Ok _ => readable r = true ∧ error r = None
       | Raised e =>
           readable r = false ∧
           error r = Some (if is_PermissionError e then msg_permission
                           else msg_read_failed ++ take 50 (str_e e)) ∧
           (is_PermissionError e = false →
            length (take 50 (str_e e)) ≤ 50)%nat
       end.
Proof.
  apply (check_file_nonempty Demo.os Demo.broken 5000);
    [reflexivity | reflexivity | lia].
Defined.

(** C3 as the specification words it fails: the file [locked.txt] exists,
    has 100 bytes and cannot be opened, and its ['error'] is not the text
    "permission denied". *)
Lemma check_file_nonempty_counterexample :
  os_path_exists Demo.os Demo.locked = true ∧
  os_path_getsize Demo.os Demo.locked = Ok 100 ∧
  open_rb_read Demo.os Demo.locked (Z.min 4096 100) = Raised Demo.eacces ∧
  is_PermissionError Demo.eacces = true ∧
  ∃ r, check_file Demo.os Demo.locked = Ok r ∧
       error r = Some msg_permission ∧
       error r ≠ Some (str "permission denied").
Proof.
  repeat split. eexists. split; [reflexivity|]. split; [reflexivity|].
  simpl. discriminate.
Qed.

(** C4, as the code has it. For a path that does not exist, the result has
    [exists] and [readable] false, [size] 0 and the message of line 68 as
    its ['error']. *)
Theorem check_file_missing_path (os : OS) (filepath : pystr) :
  os_path_exists os filepath = false →
  ∃ r, check_file os filepath = Ok r ∧
       exists_ r = false ∧ readable r = false ∧ size r = 0 ∧
       error r = Some msg_not_exist.
Proof.
  intros He. eexists. split; [by apply check_file_not_exists|]. done.
Qed.

Lemma check_file_missing_path_witness :
  ∃ r, check_file Demo.os Demo.missing = Ok r ∧
       exists_ r = false ∧ readable r = false ∧ size r = 0 ∧
       error r = Some msg_not_exist.
Proof.
  apply (check_file_missing_path Demo.os Demo.missing). reflexivity.
Defined.

(** C4 as the specification words it fails: [missing.txt] does not exist
    and the ['error'] of its result is not the text "not found". *)
Lemma check_file_missing_path_counterexample :
  os_path_exists Demo.os Demo.missing = false ∧
  ∃ r, check_file Demo.os Demo.missing = Ok r ∧
       exists_ r = false ∧ readable r = false ∧ size r = 0 ∧
       error r ≠ Some (str "not found").
Proof.
  split; [reflexivity|]. eexists. split; [reflexivity|].
  repeat split. simpl. discriminate.
Qed.

(** C5, as the code has it. For an existing file of size 0, the result has
    [exists] true, [readable] false, [size] 0 and the message of line 76 as
    its ['error']. *)
Theorem check_file_empty_file (os : OS) (filepath : pystr) :
  os_path_exists os filepath = true →
  os_path_getsize os filepath = Ok 0 →
  ∃ r, check_file os filepath = Ok r ∧
       exists_ r = true ∧ readable r = false ∧ size r = 0 ∧
       error r = Some msg_empty.
Proof.
  intros He Hs. eexists. split; [by apply check_file_empty|]. done.
Qed.

Lemma check_file_empty_file_witness :
  ∃ r, check_file Demo.os Demo.empty = Ok r ∧
       exists_ r = true ∧ readable r = false ∧ size r = 0 ∧
       error r = Some msg_empty.
Proof.
  apply (check_file_empty_file Demo.os Demo.empty); reflexivity.
Defined.

(** C5 as the specification words it fails: [empty.bin] exists with no
    bytes and the ['error'] of its result is not the text "empty file". *)
Lemma check_file_empty_file_counterexample :
  os_path_exists Demo.os Demo.empty = true ∧
  os_path_getsize Demo.os Demo.empty = Ok 0 ∧
  ∃ r, check_file Demo.os Demo.empty = Ok r ∧
       exists_ r = true ∧ readable r = false ∧ size r = 0 ∧
       error r ≠ Some (str "empty file").
Proof.
  repeat split. eexists. split; [reflexivity|].
  repeat split. simpl. discriminate.
Qed.

(** C6, as the code has it. Every result of [check_file] satisfies: if
    [readable] is true there is no ['error']; if [exists] is false then
    [size] is 0 and the ['error'] is the message of line 68. *)
Theorem check_file_invariant (os : OS) (filepath : pystr) :
  ∃ r, check_file os filepath = Ok r ∧
       (readable r = true → error r = None) ∧
       (exists_ r = false → size r = 0 ∧ error r = Some msg_not_exist).
Proof.
  destruct (check_file_cases os filepath) as (r & Hr & Hc).
  exists r. split; [done|].
  destruct Hc; simpl; split; done.
Qed.

(** C6 as the specification words it fails: the result for [missing.txt]
    has [exists] false and its ['error'] is not the text "not found". *)
Lemma check_file_invariant_counterexample :
  ∃ r, check_file Demo.os Demo.missing = Ok r ∧
       exists_ r = false ∧
       ¬ (size r = 0 ∧ error r = Some (str "not found")).
Proof.
  eexists. split; [reflexivity|]. split; [reflexivity|].
  simpl. intros [_ H]. discriminate.
Qed.

(** ** Lists of per-thread contributions *)

Section ListFacts.
Context {A B : Type}.

Lemma mjoin_insert_perm (f : A → list B) (ts : list A) (t : nat) (pc pc' : A) :
  ts !! t = Some pc →
  mjoin (f <$> <[t:=pc']> ts) ++ f pc ≡ₚ f pc' ++ mjoin (f <$> ts).
Proof.
  revert t. induction ts as [|a ts IH]; intros [|t] Ht; simplify_eq/=.
  - rewrite <-(assoc_L (++)). f_equiv. apply Permutation_app_comm.
  - rewrite <-(assoc_L (++)), IH by done.
    rewrite !(assoc_L (++)). f_equiv. apply Permutation_app_comm.
Qed.

Lemma sum_list_with_insert (g : A → nat) (ts : list A) (t : nat) (pc pc' : A) :
  ts !! t = Some pc →
  (sum_list_with g (<[t:=pc']> ts) + g pc = sum_list_with g ts + g pc')%nat.
Proof.
  revert t. induction ts as [|a ts IH]; intros [|t] Ht; simplify_eq/=.
  - lia.
  - specialize (IH _ Ht). lia.
Qed.

Lemma fmap_insert_same (f : A → B) (ts : list A) (t : nat) (pc pc' : A) :
  ts !! t = Some pc → f pc' = f pc → f <$> <[t:=pc']> ts = f <$> ts.
Proof.
  intros Ht Hf. rewrite list_fmap_insert, Hf.
  apply list_insert_id. by rewrite list_lookup_fmap, Ht.
Qed.

Lemma elem_of_insert_inv (ts : list A) (t : nat) (x y : A) :
  x ∈ <[t:=y]> ts → x = y ∨ x ∈ ts.
Proof.
  intros (j & Hj)%list_elem_of_lookup_1.
  apply list_lookup_insert_Some in Hj as [(_ & -> & _)|[_ Hj]]; [by left|].
  right. by eapply list_elem_of_lookup_2.
Qed.

Lemma perm_take (R M M' Q : list B) (x : B) :
  M' ≡ₚ x :: M → R ++ M' ++ Q ≡ₚ R ++ M ++ x :: Q.
Proof. intros ->. f_equiv. simpl. apply Permutation_middle. Qed.

Lemma perm_give (R M M' Q : list B) (x : B) :
  M' ++ [x] ≡ₚ M → (R ++ [x]) ++ M' ++ Q ≡ₚ R ++ M ++ Q.
Proof.
  intros <-. rewrite <-(assoc_L (++) R). f_equiv.
  rewrite !(assoc_L (++)). f_equiv. apply Permutation_app_comm.
Qed.

End ListFacts.

(** ** The batch: steps, measure and invariant *)

Lemma foldl_queue_put (q l : list pystr) : foldl queue_put q l = q ++ l.
Proof.
  revert q. induction l as [|p l IH]; intros q; simpl.
  - by rewrite app_nil_r.
  - rewrite IH. unfold queue_put. by rewrite <-(assoc_L (++)).
Qed.

(** Case analysis on a step [H : step os a st = Some st']: one goal per
    transition of the main thread and of a worker, with [st'] replaced by
    the state the transition builds. *)
Ltac step_inv H :=
  match type of H with
  | step _ ?a _ = Some _ =>
      destruct a as [|?t]; simpl in H;
      [ unfold main_step in H;
        destruct (mainpc _) eqn:?Hm;
        [ case_decide | destruct (threads _ !! _) as [[]|] eqn:?Hj | ];
        simplify_eq
      | destruct (threads _ !! _) as [[]|] eqn:?Hpc; simpl in H;
        [ destruct (file_queue _) eqn:?Hq
        | rewrite check_file_returns in H
        | destruct (lock _) eqn:?Hl
        | | | | match type of H with context [Z.eqb ?x 0] =>
                    destruct (Z.eqb_spec x 0);
                    [| destruct (stdout_write _ _ _ _ _) eqn:?Hw ] end
        | | | ];
        simplify_eq ]
  end.

(** Projections of a state built by the setters. *)
Ltac run_simpl :=
  cbn [self lock file_queue threads nrange mainpc checked
       goto with_self with_lock with_queue with_threads with_mainpc
       with_checked results processed total_files max_workers start_time
       set_results set_processed] in *.

Lemma step_measure os a st st' :
  step os a st = Some st' → (measure st' < measure st)%nat.
Proof.
  intros H. step_inv H; unfold measure, mrank; run_simpl.
  all: rewrite ?Hm, ?Hq, ?length_insert, ?length_app, ?sum_list_with_app;
    simpl length; simpl sum_list_with.
  all: try (match goal with
            | Hpc : threads ?st !! ?t = Some ?pc
              |- context [<[?t:=?pc']> (threads ?st)] =>
                pose proof (sum_list_with_insert wrank _ _ _ pc' Hpc) as Hs;
                simpl wrank in Hs
            end).
  all: try (apply lookup_lt_Some in Hj).
  all: try lia.
  all: destruct (mainpc st); lia.
Qed.

Section Preservation.
Context (os : OS) (file_list : list pystr).
Implicit Types st : Run.

Lemma step_inv_mutex a st st' :
  Inv os file_list st → step os a st = Some st' →
  ∀ t pc, threads st' !! t = Some pc → in_critical pc → lock st' = Some t.
Proof.
  intros [Ht Hne Hmx Hlk Hres Hchk Hsp Hmn] H t' pc'.
  step_inv H; run_simpl; intros Hl' Hc'.
  1: { apply lookup_app_Some in Hl' as [Hl'|[_ Hl']]; [by eauto|].
       destruct (t' - length (threads st))%nat; by simplify_eq/=. }
  1-3: by eauto.
  all: apply list_lookup_insert_Some in Hl' as [(-> & <- & _)|[Hne' Hl']].
  all: try done.
  all: try (by eapply Hmx; eauto).
  all: try (pose proof (Hmx _ _ Hl' Hc'); pose proof (Hmx _ _ Hpc I); congruence).
  by specialize (Hmx _ _ Hl' Hc').
Qed.

Lemma step_inv_lock a st st' :
  Inv os file_list st → step os a st = Some st' →
  match lock st' with
  | None => processed (self st') = Z.of_nat (length (results (self st')))
  | Some t =>
      ∃ pc, threads st' !! t = Some pc ∧ in_critical pc ∧
            counter_at (self st') pc
  end.
Proof.
  intros [Ht Hne Hmx Hlk Hres Hchk Hsp Hmn] H.
  step_inv H; run_simpl.
  all: try done.
  (* the thread holds the lock *)
  all: try (pose proof (Hmx _ _ Hpc I) as Hl; rewrite Hl in *;
            destruct Hlk as (pc0 & Hl0 & Hc0 & Hk0);
            rewrite Hpc in Hl0; simplify_eq; simpl in Hk0;
            first [ done
                  | eexists; split;
                    [apply list_lookup_insert_eq; by eapply lookup_lt_Some|];
                    split; [done|]; simpl; rewrite ?length_app; simpl; lia ]).
  (* the thread takes the lock *)
  all: try (eexists; split;
            [apply list_lookup_insert_eq; by eapply lookup_lt_Some|done]).
  (* the lock is not concerned *)
  all: destruct (lock st) as [t0|]; [|done];
    destruct Hlk as (pc0 & Hl0 & Hc0 & Hk0); exists pc0; (split; [|done]).
  all: try (by apply lookup_app_l_Some).
  all: rewrite list_lookup_insert_ne; [done|];
    intros ->; rewrite Hpc in Hl0; by simplify_eq.
Qed.

Lemma step_inv_results a st st' :
  Inv os file_list st → step os a st = Some st' →
  results (self st') ++ mjoin (inflight os <$> threads st') ++
    (check_file_value os <$> file_queue st')
  ≡ₚ check_file_value os <$> file_list.
Proof.
  intros [Ht Hne Hmx Hlk Hres Hchk Hsp Hmn] H.
  rewrite <-Hres. clear Hres Hchk.
  step_inv H; run_simpl.
  all: try done.
  all: rewrite ?fmap_app, ?join_app, ?Hq; simpl; rewrite ?app_nil_r; try done.
  all: try (rewrite (fmap_insert_same (inflight os) _ _ _ _ Hpc) by done; done).
  all: match goal with
       | |- context [<[?t:=?pc']> (threads ?st)] =>
           pose proof (mjoin_insert_perm (inflight os) _ _ _ pc' Hpc) as HP;
           simpl in HP; rewrite ?app_nil_r in HP
       end.
  all: try (rewrite HP; done).
  - by apply perm_take.
  - by apply perm_give.
Qed.

Lemma step_inv_checked a st st' :
  Inv os file_list st → step os a st = Some st' →
  checked st' ++ mjoin (unchecked <$> threads st') ++ file_queue st'
  ≡ₚ file_list.
Proof.
  intros [Ht Hne Hmx Hlk Hres Hchk Hsp Hmn] H.
  rewrite <-Hchk. clear Hres Hchk.
  step_inv H; run_simpl.
  all: try done.
  all: rewrite ?fmap_app, ?join_app, ?Hq; simpl; rewrite ?app_nil_r; try done.
  all: try (rewrite (fmap_insert_same unchecked _ _ _ _ Hpc) by done; done).
  all: match goal with
       | |- context [<[?t:=?pc']> (threads ?st)] =>
           pose proof (mjoin_insert_perm unchecked _ _ _ pc' Hpc) as HP;
           simpl in HP; rewrite ?app_nil_r in HP
       end.
  - by apply perm_take.
  - by apply perm_give.
Qed.

Lemma step_inv_main a st st' :
  Inv os file_list st → step os a st = Some st' →
  (length (threads st') ≤ nrange st')%nat ∧
  match mainpc st' with
  | MSpawn => True
  | MJoining i =>
      length (threads st') = nrange st' ∧
      ∀ j, (j < i)%nat → (j < length (threads st'))%nat →
           threads st' !! j = Some WExit
  | MReturned =>
      length (threads st') = nrange st' ∧
      ∀ pc, pc ∈ threads st' → pc = WExit
  end.
Proof.
  intros [Ht Hne Hmx Hlk Hres Hchk Hsp Hmn] H.
  step_inv H; run_simpl.
  all: rewrite ?length_insert, ?length_app; simpl length.
  all: rewrite ?Hm in Hmn; rewrite ?Hm.
  all: split; [lia|].
  all: try done.
  1: { split; [lia|]. intros; lia. }
  1: { destruct Hmn as [Hlen Hall]. split; [done|]. intros j ? ?.
       destruct (decide (j = i)) as [->|]; [done|]. apply Hall; lia. }
  1: { destruct Hmn as [Hlen Hall]. split; [done|].
       intros pc (j & Hjj)%list_elem_of_lookup_1.
       apply lookup_ge_None in Hj. pose proof (lookup_lt_Some _ _ _ Hjj).
       rewrite Hall in Hjj by lia. congruence. }
  all: destruct (mainpc st) as [|i|]; [done| |];
    destruct Hmn as [Hlen Hall]; (split; [done|]).
  all: try (apply list_elem_of_lookup_2 in Hpc; apply Hall in Hpc; done).
  all: intros j Hji Hjl; destruct (decide (j = t)) as [->|];
    [ specialize (Hall t Hji Hjl); rewrite Hpc in Hall; done
    | rewrite list_lookup_insert_ne by done; by eauto ].
Qed.

Lemma step_total_files a st st' :
  step os a st = Some st' → total_files (self st') = total_files (self st).
Proof. intros H. step_inv H; by run_simpl. Qed.

Lemma Inv_step a st st' :
  Inv os file_list st → step os a st = Some st' → Inv os file_list st'.
Proof.
  intros HI H.
  destruct (step_inv_main _ _ _ HI H) as [Hsp Hmn].
  constructor; [ | | | | | | done | done ].
  - rewrite (step_total_files _ _ _ H). by destruct HI.
  - by destruct HI.
  - by eapply step_inv_mutex.
  - by eapply step_inv_lock.
  - by eapply step_inv_results.
  - by eapply step_inv_checked.
Qed.

Lemma Inv_init now c :
  file_list ≠ [] → Inv os file_list (init_run now c file_list).
Proof.
  intros Hne. constructor; simpl; try done.
  - by rewrite foldl_queue_put.
  - by rewrite foldl_queue_put.
  - lia.
Qed.

Lemma Inv_reachable st0 st :
  Inv os file_list st0 → reachable os st0 st → Inv os file_list st.
Proof.
  intros HI Hr. induction Hr as [|st1 st2 st3 [a Ha] _ IH]; [done|].
  apply IH. by eapply Inv_step.
Qed.

End Preservation.

(** ** Scheduling: some actor can move until the main thread returns *)

Section Progress.
Context (os : OS).
Implicit Types st : Run.

Lemma enabled_spec a st : a ∈ enabled os st ↔ is_Some (step os a st).
Proof.
  unfold enabled. rewrite list_elem_of_filter. split; [by intros [? _]|].
  intros Hs. split; [done|]. destruct a as [|t]; [left|right].
  apply list_elem_of_fmap_2, elem_of_seq. simpl in *.
  destruct (threads st !! t) eqn:Ht; [|by destruct Hs].
  apply lookup_lt_Some in Ht. lia.
Qed.

Lemma pick_Some {A} (k : nat) (l : list A) :
  l ≠ [] → ∃ x, pick k l = Some x ∧ x ∈ l.
Proof.
  intros Hl. unfold pick.
  destruct (lookup_lt_is_Some_2 l (k mod length l)) as [x Hx].
  { apply Nat.mod_upper_bound. by destruct l. }
  exists x. split; [done|]. by eapply list_elem_of_lookup_2.
Qed.

Lemma pick_elem_of {A} (k : nat) (l : list A) (x : A) :
  pick k l = Some x → x ∈ l.
Proof. apply list_elem_of_lookup_2. Qed.

Lemma worker_can_move st t pc :
  threads st !! t = Some pc → pc ≠ WExit →
  (∀ r, pc = WAcquire r → lock st = None) →
  Worker t ∈ enabled os st.
Proof.
  intros Ht Hx Hl. apply enabled_spec. simpl. rewrite Ht.
  destruct pc; simpl; try done.
  - by destruct (file_queue st).
  - by destruct (check_file os filepath).
  - by rewrite (Hl _ eq_refl).
  - destruct (total_files (self st) =? 0); [done|].
    by destruct (stdout_write _ _ _ _ _).
Qed.

Lemma progress file_list st :
  Inv os file_list st → mainpc st ≠ MReturned → enabled os st ≠ [].
Proof.
  intros HI Hm.
  assert (∃ a, a ∈ enabled os st) as [a Ha]; [|by intros E; rewrite E in Ha;
    apply elem_of_nil in Ha].
  destruct (mainpc st) as [|i|] eqn:Hpc; [| |done].
  - exists Main. apply enabled_spec. simpl. unfold main_step. rewrite Hpc.
    by case_decide.
  - destruct (threads st !! i) as [pc|] eqn:Hi.
    + assert (pc = WExit ∨ pc ≠ WExit) as [->|Hx]
        by (destruct pc; (by left) || (by right)).
      { exists Main. apply enabled_spec. simpl. unfold main_step.
        by rewrite Hpc, Hi. }
      destruct (lock st) as [t|] eqn:Hl.
      * pose proof (inv_lock _ _ _ HI) as Hlk. rewrite Hl in Hlk.
        destruct Hlk as (pc' & Ht & Hc & _).
        exists (Worker t).
        eapply worker_can_move; [done|intros ->|intros r ->]; destruct Hc.
      * exists (Worker i). by eapply worker_can_move.
    + exists Main. apply enabled_spec. simpl. unfold main_step.
      by rewrite Hpc, Hi.
Qed.

Lemma exec_reachable fuel sched st : reachable os st (exec os fuel sched st).
Proof.
  revert sched st. induction fuel as [|fuel IH]; intros sched st; simpl.
  - apply rtc_refl.
  - destruct (pick _ _) as [a|]; [|apply rtc_refl].
    destruct (step os a st) as [st'|] eqn:Ha; [|apply rtc_refl].
    eapply rtc_l; [by exists a|apply IH].
Qed.

Lemma measure_zero st : measure st = O → mainpc st = MReturned.
Proof.
  unfold measure, mrank. destruct (mainpc st); [lia|lia|done].
Qed.

Lemma exec_returns file_list fuel sched st :
  Inv os file_list st → (measure st ≤ fuel)%nat →
  mainpc (exec os fuel sched st) = MReturned.
Proof.
  revert sched st. induction fuel as [|fuel IH]; intros sched st HI Hm; simpl.
  - apply measure_zero. lia.
  - assert (mainpc st = MReturned ∨ mainpc st ≠ MReturned) as [Hr|Hr]
      by (destruct (mainpc st); (by left) || (by right)).
    + destruct (pick _ _) as [a|] eqn:Hp; [|done].
      apply pick_elem_of, enabled_spec in Hp as [st' Hs]. rewrite Hs.
      destruct a; simpl in Hs; unfold main_step in Hs.
      * by rewrite Hr in Hs.
      * destruct (threads st !! t) as [pc|] eqn:Ht; [|done].
        pose proof (inv_main _ _ _ HI) as Hmn. rewrite Hr in Hmn.
        destruct Hmn as [_ Hall].
        apply list_elem_of_lookup_2, Hall in Ht. by subst.
    + destruct (pick_Some (sched O) (enabled os st)) as (a & -> & Ha).
      { by eapply progress. }
      apply enabled_spec in Ha as [st' Hs]. rewrite Hs.
      apply IH; [by eapply Inv_step|].
      apply step_measure in Hs. lia.
Qed.

End Progress.

(** ** The state in which [check_batch] returns *)

Section Final.
Context (os : OS).
Implicit Types st : Run.

Lemma file_check_file_value filepath :
  file (check_file_value os filepath) = filepath.
Proof.
  pose proof (check_file_returns os filepath) as Hr.
  destruct (check_file_cases os filepath) as (r & Hr' & Hc).
  rewrite Hr in Hr'. injection Hr' as ->. by destruct Hc.
Qed.

Lemma step_nrange a st st' :
  step os a st = Some st' → nrange st' = nrange st.
Proof. intros H. step_inv H; by run_simpl. Qed.

Lemma reachable_nrange st0 st :
  reachable os st0 st → nrange st = nrange st0.
Proof.
  induction 1 as [|st1 st2 st3 [a Ha] _ IH]; [done|].
  rewrite IH. by eapply step_nrange.
Qed.

Lemma mjoin_all_exit {B} (f : wpc → list B) (ts : list wpc) :
  f WExit = [] → (∀ pc, pc ∈ ts → pc = WExit) → mjoin (f <$> ts) = [].
Proof.
  intros Hf. induction ts as [|pc ts IH]; intros Hall; [done|]. simpl.
  rewrite (Hall pc), Hf by left. apply IH. intros ? ?. apply Hall. by right.
Qed.

Lemma returned_counter file_list st :
  Inv os file_list st → mainpc st = MReturned →
  lock st = None ∧
  processed (self st) = Z.of_nat (length (results (self st))).
Proof.
  intros HI Hm. pose proof (inv_main _ _ _ HI) as Hmn. rewrite Hm in Hmn.
  destruct Hmn as [_ Hall]. pose proof (inv_lock _ _ _ HI) as Hlk.
  destruct (lock st) as [t|]; [|done].
  destruct Hlk as (pc & Ht & Hc & _).
  apply list_elem_of_lookup_2, Hall in Ht. subst. destruct Hc.
Qed.

Lemma returned_partial file_list st :
  Inv os file_list st → mainpc st = MReturned →
  results (self st) ++ (check_file_value os <$> file_queue st)
    ≡ₚ check_file_value os <$> file_list ∧
  checked st ++ file_queue st ≡ₚ file_list.
Proof.
  intros HI Hm. pose proof (inv_main _ _ _ HI) as Hmn. rewrite Hm in Hmn.
  destruct Hmn as [Hlen Hall].
  pose proof (inv_results _ _ _ HI) as Hres.
  pose proof (inv_checked _ _ _ HI) as Hchk.
  rewrite (mjoin_all_exit (inflight os)) in Hres by done.
  by rewrite (mjoin_all_exit unchecked) in Hchk by done.
Qed.

Lemma returned_results file_list st :
  Inv os file_list st → mainpc st = MReturned → file_queue st = [] →
  results (self st) ≡ₚ check_file_value os <$> file_list ∧
  checked st ≡ₚ file_list.
Proof.
  intros HI Hm Hq. destruct (returned_partial _ _ HI Hm) as [Hres Hchk].
  rewrite Hq in Hres, Hchk. simpl in Hres. by rewrite !app_nil_r in Hres, Hchk.
Qed.

Lemma results_of_batch file_list st r :
  Inv os file_list st → r ∈ results (self st) →
  ∃ filepath, filepath ∈ file_list ∧ check_file os filepath = Ok r.
Proof.
  intros HI Hr.
  assert (r ∈ check_file_value os <$> file_list) as Hin.
  { rewrite <-(inv_results _ _ _ HI). apply elem_of_app. by left. }
  apply list_elem_of_fmap in Hin as (p & -> & Hp).
  exists p. split; [done|]. apply check_file_returns.
Qed.

(** The state in which a batch over a non-empty list ends. *)
Lemma batch_returns sched now c file_list :
  file_list ≠ [] →
  let st0 := init_run now c file_list in
  let st := exec os (measure st0) sched st0 in
  Inv os file_list st ∧ mainpc st = MReturned ∧
  nrange st = Z.to_nat (Z.min (max_workers c) (Z.of_nat (length file_list))).
Proof.
  intros Hne st0 st. pose proof (Inv_init os file_list now c Hne) as HI0.
  split; [|split].
  - eapply Inv_reachable; [exact HI0|apply exec_reachable].
  - by eapply exec_returns.
  - unfold st. by rewrite (reachable_nrange _ _ (exec_reachable _ _ _ _)).
Qed.

End Final.

(** ** More on the states of a batch *)

Section BatchFacts.
Context (os : OS) (file_list : list pystr).
Implicit Types st : Run.

Lemma step_frame a st st' :
  step os a st = Some st' →
  max_workers (self st') = max_workers (self st) ∧
  start_time (self st') = start_time (self st).
Proof. intros H. step_inv H; by run_simpl. Qed.

Lemma reachable_frame st0 st :
  reachable os st0 st →
  max_workers (self st) = max_workers (self st0) ∧
  start_time (self st) = start_time (self st0) ∧
  total_files (self st) = total_files (self st0).
Proof.
  induction 1 as [|st1 st2 st3 [a Ha] _ IH]; [done|].
  destruct (step_frame _ _ _ Ha) as [H1 H2].
  rewrite (step_total_files _ _ _ _ Ha) in IH. by rewrite <-H1, <-H2.
Qed.

Lemma last_recorded_step a st st' :
  Inv os file_list st → last_recorded st → step os a st = Some st' →
  last_recorded st'.
Proof.
  intros [Ht Hne Hmx Hlk Hres Hchk Hsp Hmn] HL H t' pc' r'.
  step_inv H; run_simpl; intros Hl' Hr'.
  1: { apply lookup_app_Some in Hl' as [Hl'|[_ Hl']]; [by eauto|].
       destruct (t' - length (threads st))%nat; by simplify_eq/=. }
  1-3: by eauto.
  all: apply list_lookup_insert_Some in Hl' as [(-> & <- & _)|[Hne' Hl']].
  all: simpl in Hr'; simplify_eq.
  all: try (by eapply HL; eauto).
  all: try (by rewrite last_snoc).
  (* another thread cannot be recording while this one appends *)
  assert (in_critical pc') as Hc by (by destruct pc').
  pose proof (Hmx _ _ Hl' Hc). pose proof (Hmx _ _ Hpc I). congruence.
Qed.

Lemma last_recorded_reachable now c st :
  file_list ≠ [] → reachable os (init_run now c file_list) st →
  Inv os file_list st ∧ last_recorded st.
Proof.
  intros Hne Hr.
  assert (Inv os file_list (init_run now c file_list) ∧
          last_recorded (init_run now c file_list)) as H0.
  { split; [by apply Inv_init|]. intros t pc r Ht; by destruct t. }
  induction Hr as [|st1 st2 st3 [a Ha] _ IH]; [done|].
  destruct H0 as [HI HL]. apply IH.
  split; [by eapply Inv_step|by eapply last_recorded_step].
Qed.

Lemma results_bounded st :
  Inv os file_list st →
  (length (results (self st)) ≤ length file_list)%nat.
Proof.
  intros HI. pose proof (inv_results _ _ _ HI) as Hres.
  apply Permutation_length in Hres.
  rewrite !length_app, !length_fmap in Hres. lia.
Qed.

Lemma in_order_step a st st' :
  Inv os file_list st → (nrange st ≤ 1)%nat → in_order os file_list st →
  step os a st = Some st' → in_order os file_list st'.
Proof.
  intros HI Hn [Hres Hchk] H. pose proof (inv_spawned _ _ _ HI) as Hsp.
  unfold in_order. rewrite <-Hres. rewrite <-Hchk. clear Hres Hchk.
  step_inv H; run_simpl; try done.
  1: { rewrite !fmap_app, !join_app. simpl. by rewrite !app_nil_r. }
  all: destruct (threads st) as [|pc0 [|pc1 ts]] eqn:Hts;
    [done| |simpl in Hsp; lia].
  all: destruct t as [|t]; [|done]; simplify_eq/=.
  all: rewrite ?Hq, ?app_nil_r; simpl; try done.
  all: by rewrite <-!(assoc_L (++)).
Qed.

End BatchFacts.

(** ** What the console decides *)

Section Console.
Context (os : OS) (file_list : list pystr).
Implicit Types st : Run.

Lemma console_shows_spec filepath n :
  console_shows os file_list = true →
  filepath ∈ file_list →
  1 ≤ n ≤ Z.of_nat (length file_list) →
  ∃ u, stdout_write os n (Z.of_nat (length file_list))
         (readable (check_file_value os filepath))
         (take 30 (filename (check_file_value os filepath))) = Ok u.
Proof.
  unfold console_shows. intros Hc Hp Hn.
  rewrite forallb_forall in Hc.
  specialize (Hc filepath (proj1 (list_elem_of_In _ _) Hp)).
  rewrite forallb_forall in Hc.
  specialize (Hc n). destruct (stdout_write _ _ _ _ _) as [u|e]; [by exists u|].
  discriminate Hc. apply list_elem_of_In, elem_of_seqZ. lia.
Qed.

(** The line a thread is about to write is one of those that
    [console_shows] tries. *)
Lemma progress_write_shown st t result :
  console_shows os file_list = true →
  Inv os file_list st → last_recorded st →
  threads st !! t = Some (WProgress result) →
  ∃ u, stdout_write os (processed (self st)) (total_files (self st))
         (readable result) (take 30 (filename result)) = Ok u.
Proof.
  intros Hc HI HL Ht.
  pose proof (HL _ _ _ Ht eq_refl) as Hlast.
  pose proof (inv_mutex _ _ _ HI _ _ Ht I) as Hl.
  pose proof (inv_lock _ _ _ HI) as Hlk. rewrite Hl in Hlk.
  destruct Hlk as (pc & Ht' & _ & Hk). rewrite Ht in Ht'. simplify_eq.
  simpl in Hk. pose proof (results_bounded _ _ _ HI) as Hb.
  assert (result ∈ results (self st)) as Hin.
  { apply last_Some in Hlast as [l' ->]. apply elem_of_app. right. left. }
  destruct (results_of_batch _ _ _ _ HI Hin) as (p & Hp & Hr).
  assert (result = check_file_value os p) as ->.
  { pose proof (check_file_returns os p). congruence. }
  rewrite (inv_total _ _ _ HI). apply console_shows_spec; [done..|].
  destruct (results (self st)); [done|simpl in *; lia].
Qed.

Lemma drained_step a st st' :
  console_shows os file_list = true →
  Inv os file_list st → last_recorded st → drained st →
  step os a st = Some st' → drained st'.
Proof.
  intros Hc HI HL Hd H. pose proof (inv_total _ _ _ HI) as Ht.
  pose proof (inv_nonempty _ _ _ HI) as Hne.
  pose proof (progress_write_shown st) as Hw'. unfold drained in *.
  step_inv H; run_simpl.
  all: try done.
  all: try (intros [?|?]%elem_of_insert_inv; by eauto).
  - intros [?|?%list_elem_of_singleton]%elem_of_app; by eauto.
  - intros [?|Hin]%elem_of_insert_inv; [done|].
    apply Hd in Hin. congruence.
  - destruct file_list; [done|]. simpl in Ht. lia.
  - destruct (Hw' _ _ Hc HI HL Hpc) as [u Hu]. congruence.
Qed.

Lemma ended_step a st st' :
  Inv os file_list st → last_recorded st → ended_after_recording st →
  step os a st = Some st' → ended_after_recording st'.
Proof.
  intros HI HL Hd H. pose proof (inv_total _ _ _ HI) as Ht.
  pose proof (inv_nonempty _ _ _ HI) as Hne.
  assert (∀ t r, threads st !! t = Some (WProgress r) →
                 results (self st) ≠ []) as Hrec.
  { intros t r Hpc. pose proof (HL _ _ _ Hpc eq_refl) as Hlast.
    by destruct (results (self st)). }
  unfold ended_after_recording in *.
  step_inv H; run_simpl.
  all: try done.
  all: try (intros [?|?]%elem_of_insert_inv; by eauto).
  - intros [?|?%list_elem_of_singleton]%elem_of_app; by eauto.
  - intros [?|Hin]%elem_of_insert_inv; [done|].
    destruct (Hd Hin) as [?|?]; [congruence|by right].
  - intros _. right. by destruct (results (self st)).
Qed.

(** What holds in every state of a batch. *)
Lemma batch_invariants now c st :
  file_list ≠ [] → reachable os (init_run now c file_list) st →
  Inv os file_list st ∧ last_recorded st ∧ ended_after_recording st ∧
  (console_shows os file_list = true → drained st).
Proof.
  intros Hne Hr.
  assert (Inv os file_list (init_run now c file_list) ∧
          last_recorded (init_run now c file_list) ∧
          ended_after_recording (init_run now c file_list) ∧
          (console_shows os file_list = true →
           drained (init_run now c file_list))) as H0.
  { split; [by apply Inv_init|]. split; [intros t pc r Ht; by destruct t|].
    split; [|intros _]; by intros ?%elem_of_nil. }
  induction Hr as [|st1 st2 st3 [a Ha] _ IH]; [done|].
  destruct H0 as (HI & HL & HE & HD). apply IH.
  split; [by eapply Inv_step|]. split; [by eapply last_recorded_step|].
  split; [by eapply ended_step|]. intros Hc. eapply drained_step; eauto.
Qed.

End Console.

(** ** The contract of [check_batch] *)

Lemma step_counter_monotone os file_list a st st' :
  Inv os file_list st → step os a st = Some st' →
  processed (self st) ≤ processed (self st') ∧
  results (self st) `prefix_of` results (self st').
Proof.
  intros [Ht Hne Hmx Hlk Hres Hchk Hsp Hmn] H.
  step_inv H; run_simpl; try done.
  - split; [done|]. by apply prefix_app_r.
  - split; [|done].
    pose proof (Hmx _ _ Hpc I) as Hl. rewrite Hl in Hlk.
    destruct Hlk as (pc0 & Hl0 & _ & Hk0). rewrite Hpc in Hl0.
    simplify_eq. destruct Hk0 as [-> _]. lia.
Qed.

Lemma check_batch_nonempty os sched now c file_list :
  file_list ≠ [] →
  check_batch os sched now c file_list =
    (match mainpc (batch_end os sched now c file_list) with
     | MReturned => Some (results (self (batch_end os sched now c file_list)))
     | _ => None
     end, self (batch_end os sched now c file_list)) ∧
  check_batch_calls os sched now c file_list =
    checked (batch_end os sched now c file_list).
Proof. by destruct file_list. Qed.

Lemma returned_exit os file_list st :
  Inv os file_list st → mainpc st = MReturned → (0 < nrange st)%nat →
  WExit ∈ threads st ∧ ∀ pc, pc ∈ threads st → pc = WExit.
Proof.
  intros HI Hm Hn. pose proof (inv_main _ _ _ HI) as Hmn. rewrite Hm in Hmn.
  destruct Hmn as [Hlen Hall]. split; [|done].
  destruct (threads st) as [|pc ts] eqn:Hts; [simpl in Hlen; lia|].
  rewrite (Hall pc) by left. left.
Qed.

(** What [check_batch] returns, together with the paths [rest] that were
    still in the queue when the last worker ended: the results are those of
    the paths that left the queue, [check_file] was called once on each of
    them, and with at least one worker something was recorded.  Nothing is
    left when the console shows every progress line. *)
Lemma check_batch_partial os sched now c file_list :
  ∃ rs rest,
    fst (check_batch os sched now c file_list) = Some rs ∧
    snd (check_batch os sched now c file_list) =
      (if decide (file_list = []) then c
       else {| max_workers := max_workers c; results := rs;
               total_files := Z.of_nat (length file_list);
               processed := Z.of_nat (length rs);
               start_time := Some now |}) ∧
    rs ++ (check_file_value os <$> rest) ≡ₚ check_file_value os <$> file_list ∧
    check_batch_calls os sched now c file_list ++ rest ≡ₚ file_list ∧
    (1 ≤ max_workers c → file_list ≠ [] → rs ≠ []) ∧
    (1 ≤ max_workers c → console_shows os file_list = true → rest = []).
Proof.
  destruct (decide (file_list = [])) as [->|Hne].
  { exists [], []. by repeat split. }
  destruct (check_batch_nonempty os sched now c file_list Hne) as [-> ->].
  destruct (batch_returns os sched now c file_list Hne) as (HI & Hm & Hn).
  fold (batch_end os sched now c file_list) in HI, Hm, Hn.
  destruct (batch_invariants os file_list now c
              (batch_end os sched now c file_list) Hne)
    as (_ & _ & HE & HD); [apply exec_reachable|].
  destruct (returned_partial os file_list _ HI Hm) as [Hres Hchk].
  destruct (returned_counter os file_list _ HI Hm) as [_ Hp].
  destruct (reachable_frame os _ _
              (exec_reachable os (measure (init_run now c file_list)) sched
                 (init_run now c file_list))) as (Hw & Hs & Ht).
  fold (batch_end os sched now c file_list) in Hw, Hs, Ht. simpl in Hw, Hs, Ht.
  assert (1 ≤ max_workers c →
          WExit ∈ threads (batch_end os sched now c file_list)) as Hex.
  { intros Hmw. apply (returned_exit os file_list); [done..|].
    rewrite Hn. destruct file_list; [done|]. simpl length. lia. }
  simpl. rewrite Hm.
  exists (results (self (batch_end os sched now c file_list))),
         (file_queue (batch_end os sched now c file_list)).
  split; [done|]. split.
  { destruct (self (batch_end os sched now c file_list)) as [mw rs tf pr stt].
    simpl in *. by subst. }
  split; [done|]. split; [done|]. split.
  - intros Hmw _ Hnil. destruct (HE (Hex Hmw)) as [Hq|]; [|done].
    rewrite Hq, Hnil in Hres. simpl in Hres. apply Permutation_nil in Hres.
    by apply fmap_nil_inv in Hres.
  - intros Hmw Hc. by apply (HD Hc), Hex.
Qed.

Lemma fmap_file_check_file_value os (l : list pystr) :
  file <$> (check_file_value os <$> l) = l.
Proof.
  rewrite <-list_fmap_compose.
  erewrite list_fmap_ext; [by rewrite list_fmap_id|].
  intros ? p _. apply file_check_file_value.
Qed.

Lemma check_file_of_batch os (rs : list Result) (l : list pystr) :
  rs ⊆+ check_file_value os <$> l →
  Forall (λ r, check_file os (file r) = Ok r) rs.
Proof.
  intros Hsub. apply Forall_forall. intros r Hr.
  eapply elem_of_submseteq in Hr; [|exact Hsub].
  apply list_elem_of_fmap in Hr as (p & -> & _).
  rewrite file_check_file_value. apply check_file_returns.
Qed.

(** C1, as the code has it. For every list of N paths and every
    [max_workers] in [1,16], [check_batch] returns at most N results, each
    the result of [check_file] on an input path of its own, and
    [check_file] was called exactly on the paths reported, once on each: no
    path is processed or reported more than once.  The list has exactly N
    results, one for each input path, when the console takes every progress
    line of the batch; a worker whose progress line cannot be written
    (lines 119-121) ends there, after it recorded its result. *)
Theorem check_batch_exactly_once (os : OS) (sched : scheduler) (now : Z)
    (c : FileChecker) (file_list : list pystr) :
  1 ≤ max_workers c ≤ 16 →
  ∃ rs, fst (check_batch os sched now c file_list) = Some rs ∧
        (length rs ≤ length file_list)%nat ∧
        file <$> rs ⊆+ file_list ∧
        Forall (λ r, check_file os (file r) = Ok r) rs ∧
        check_batch_calls os sched now c file_list ≡ₚ file <$> rs ∧
        (file_list ≠ [] → rs ≠ []) ∧
        (console_shows os file_list = true →
         length rs = length file_list ∧
         file <$> rs ≡ₚ file_list ∧
         check_batch_calls os sched now c file_list ≡ₚ file_list).
Proof.
  intros [Hmw _].
  destruct (check_batch_partial os sched now c file_list)
    as (rs & rest & Hrs & _ & Hperm & Hcalls & Hone & Hall).
  assert (rs ⊆+ check_file_value os <$> file_list) as Hsub.
  { rewrite <-Hperm. by apply submseteq_inserts_r. }
  assert ((file <$> rs) ++ rest ≡ₚ file_list) as Hfile.
  { rewrite <-(fmap_file_check_file_value os file_list), <-Hperm.
    by rewrite fmap_app, fmap_file_check_file_value. }
  exists rs. split; [done|]. split; [|split; [|split; [|split; [|split]]]].
  - apply submseteq_length in Hsub. by rewrite length_fmap in Hsub.
  - rewrite <-Hfile. by apply submseteq_inserts_r.
  - by eapply check_file_of_batch.
  - apply (Permutation_app_inv_r rest). by rewrite Hcalls, Hfile.
  - by apply Hone.
  - intros Hc. rewrite (Hall Hmw Hc) in *. rewrite !app_nil_r in *.
    split; [|done]. by rewrite <-Hfile, length_fmap.
Qed.

Lemma check_batch_exactly_once_witness :
  ∃ rs, fst (check_batch Demo.os Demo.shuffled 7 (new_checker 3) Demo.files)
          = Some rs ∧
        (length rs ≤ length Demo.files)%nat ∧
        file <$> rs ⊆+ Demo.files ∧
        Forall (λ r, check_file Demo.os (file r) = Ok r) rs ∧
        check_batch_calls Demo.os Demo.shuffled 7 (new_checker 3) Demo.files
          ≡ₚ file <$> rs ∧
        (Demo.files ≠ [] → rs ≠ []) ∧
        (console_shows Demo.os Demo.files = true →
         length rs = length Demo.files ∧
         file <$> rs ≡ₚ Demo.files ∧
         check_batch_calls Demo.os Demo.shuffled 7 (new_checker 3) Demo.files
           ≡ₚ Demo.files).
Proof.
  apply (check_batch_exactly_once Demo.os Demo.shuffled 7 (new_checker 3)
           Demo.files).
  simpl. lia.
Defined.

(** C1 as the specification words it fails. The console of [Demo.plain]
    cannot encode the lone surrogate in the name of [Demo.bad]: with one
    worker the thread records the result of [bad], fails at its progress
    line and ends, and [check_batch] returns one result for the two paths;
    [ok.txt] is never checked. *)
Lemma check_batch_exactly_once_counterexample :
  1 ≤ max_workers (new_checker 1) ≤ 16 ∧
  length Demo.bad_then_ok = 2%nat ∧
  check_batch Demo.plain Demo.first_ready 7 (new_checker 1) Demo.bad_then_ok
    = (Some [check_file_value Demo.plain Demo.bad],
       {| max_workers := 1;
          results := [check_file_value Demo.plain Demo.bad];
          total_files := 2; processed := 1; start_time := Some 7 |}) ∧
  check_batch_calls Demo.plain Demo.first_ready 7 (new_checker 1)
    Demo.bad_then_ok = [Demo.bad] ∧
  ¬ ∃ rs, fst (check_batch Demo.plain Demo.first_ready 7 (new_checker 1)
                 Demo.bad_then_ok) = Some rs ∧
          length rs = length Demo.bad_then_ok.
Proof.
  split; [simpl; lia|]. split; [done|]. split; [by vm_compute|].
  split; [by vm_compute|]. intros (rs & Hrs & Hlen).
  vm_compute in Hrs. by simplify_eq.
Qed.

(** The scheduler decides the order: under [shuffled] the result for
    [empty.bin] comes last. *)
Example check_batch_order :
  (λ rs : list Result, file <$> rs) <$>
    fst (check_batch Demo.os Demo.shuffled 7 (new_checker 3) Demo.files)
  = Some [Demo.missing; Demo.ok; Demo.locked; Demo.empty].
Proof. vm_compute. reflexivity. Qed.

(** Below the range the claim needs its bound: with [max_workers = 0] the
    loop of line 145 starts no thread and the four paths are never
    checked. *)
Example check_batch_no_worker :
  check_batch Demo.os Demo.first_ready 7 (new_checker 0) Demo.files =
    (Some [], {| max_workers := 0; results := []; total_files := 4;
                 processed := 0; start_time := Some 7 |}).
Proof. vm_compute. reflexivity. Qed.

(** C8, as the code has it. On the same path list, a batch with one worker
    and a batch with sixteen each return results of [check_file] on paths
    of the list, no path twice; when the console takes every progress line
    both return the results of all the paths, so the same results up to
    order, whatever the two schedules. *)
Theorem check_batch_1_and_16 (os : OS) (sched1 sched16 : scheduler)
    (now1 now16 : Z) (c1 c16 : FileChecker) (file_list : list pystr) :
  max_workers c1 = 1 →
  max_workers c16 = 16 →
  ∃ rs1 rs16,
    fst (check_batch os sched1 now1 c1 file_list) = Some rs1 ∧
    fst (check_batch os sched16 now16 c16 file_list) = Some rs16 ∧
    rs1 ⊆+ check_file_value os <$> file_list ∧
    rs16 ⊆+ check_file_value os <$> file_list ∧
    (console_shows os file_list = true →
     rs1 ≡ₚ check_file_value os <$> file_list ∧ rs1 ≡ₚ rs16).
Proof.
  intros H1 H16.
  destruct (check_batch_partial os sched1 now1 c1 file_list)
    as (rs1 & rest1 & Hrs1 & _ & Hp1 & _ & _ & Hall1).
  destruct (check_batch_partial os sched16 now16 c16 file_list)
    as (rs16 & rest16 & Hrs16 & _ & Hp16 & _ & _ & Hall16).
  exists rs1, rs16. split; [done|]. split; [done|].
  split; [rewrite <-Hp1; by apply submseteq_inserts_r|].
  split; [rewrite <-Hp16; by apply submseteq_inserts_r|].
  intros Hc. rewrite Hall1 in Hp1 by (done || lia).
  rewrite Hall16 in Hp16 by (done || lia). simpl in Hp1, Hp16.
  rewrite app_nil_r in Hp1, Hp16. split; [done|]. by rewrite Hp1, Hp16.
Qed.

Lemma check_batch_1_and_16_witness :
  ∃ rs1 rs16,
    fst (check_batch Demo.os Demo.first_ready 7 (new_checker 1) Demo.files)
      = Some rs1 ∧
    fst (check_batch Demo.os Demo.shuffled 9 (new_checker 16) Demo.files)
      = Some rs16 ∧
    rs1 ⊆+ check_file_value Demo.os <$> Demo.files ∧
    rs16 ⊆+ check_file_value Demo.os <$> Demo.files ∧
    (console_shows Demo.os Demo.files = true →
     rs1 ≡ₚ check_file_value Demo.os <$> Demo.files ∧ rs1 ≡ₚ rs16).
Proof.
  apply (check_batch_1_and_16 Demo.os Demo.first_ready Demo.shuffled 7 9
           (new_checker 1) (new_checker 16) Demo.files); reflexivity.
Defined.

(** On [Demo.os] and [Demo.files] the console takes every line. *)
Example console_shows_demo : console_shows Demo.os Demo.files = true.
Proof. by vm_compute. Qed.

(** C8 as the specification words it fails on the same console and list:
    the one worker ends at the progress line of [bad] and returns one
    result, while with sixteen configured a second thread has taken
    [ok.txt] and two results are returned. *)
Lemma check_batch_1_and_16_counterexample :
  max_workers (new_checker 1) = 1 ∧
  max_workers (new_checker 16) = 16 ∧
  fst (check_batch Demo.plain Demo.round_robin 7 (new_checker 1)
         Demo.bad_then_ok)
    = Some [check_file_value Demo.plain Demo.bad] ∧
  fst (check_batch Demo.plain Demo.round_robin 7 (new_checker 16)
         Demo.bad_then_ok)
    = Some [check_file_value Demo.plain Demo.bad;
            check_file_value Demo.plain Demo.ok] ∧
  ¬ [check_file_value Demo.plain Demo.bad]
      ≡ₚ [check_file_value Demo.plain Demo.bad;
          check_file_value Demo.plain Demo.ok].
Proof.
  split; [done|]. split; [done|]. split; [by vm_compute|].
  split; [by vm_compute|]. by intros ?%Permutation_length.
Qed.

(** C7. In every state a batch can reach:
    - only the thread that holds the lock stands between the append and
      the end of the [with] block;
    - while no thread holds the lock, [processed] is the length of
      [results]; while one does, the two differ only between its append
      and its increment, and the value it read is still the counter;
    - no step decreases [processed] or removes a result;
    - once every worker has ended, and so when [check_batch] returns,
      [processed] is the length of [results]. *)
Theorem record_is_atomic (os : OS) (now : Z) (c : FileChecker)
    (file_list : list pystr) (st : Run) :
  file_list ≠ [] →
  reachable os (init_run now c file_list) st →
  (∀ t pc, threads st !! t = Some pc → in_critical pc → lock st = Some t) ∧
  match lock st with
  | None => processed (self st) = Z.of_nat (length (results (self st)))
  | Some t =>
      ∃ pc, threads st !! t = Some pc ∧ in_critical pc ∧
            counter_at (self st) pc
  end ∧
  (∀ a st', step os a st = Some st' →
            processed (self st) ≤ processed (self st') ∧
            results (self st) `prefix_of` results (self st')) ∧
  ((∀ pc, pc ∈ threads st → pc = WExit) →
   processed (self st) = Z.of_nat (length (results (self st)))) ∧
  (mainpc st = MReturned →
   (∀ pc, pc ∈ threads st → pc = WExit) ∧
   processed (self st) = Z.of_nat (length (results (self st)))).
Proof.
  intros Hne Hr.
  assert (Inv os file_list st) as HI.
  { eapply Inv_reachable; [by apply Inv_init|done]. }
  split; [apply (inv_mutex _ _ _ HI)|].
  split; [apply (inv_lock _ _ _ HI)|].
  split; [|split].
  - intros a st' Hs. by eapply step_counter_monotone.
  - intros Hall. pose proof (inv_lock _ _ _ HI) as Hlk.
    destruct (lock st) as [t|]; [|done].
    destruct Hlk as (pc & Ht & Hc & _).
    apply list_elem_of_lookup_2, Hall in Ht. subst. destruct Hc.
  - intros Hm. split; [|by eapply returned_counter].
    pose proof (inv_main _ _ _ HI) as Hmn. rewrite Hm in Hmn. by destruct Hmn.
Qed.

Lemma record_is_atomic_witness :
  (∀ t pc, threads Demo.midway !! t = Some pc → in_critical pc →
           lock Demo.midway = Some t) ∧
  match lock Demo.midway with
  | None =>
      processed (self Demo.midway) =
        Z.of_nat (length (results (self Demo.midway)))
  | Some t =>
      ∃ pc, threads Demo.midway !! t = Some pc ∧ in_critical pc ∧
            counter_at (self Demo.midway) pc
  end ∧
  (∀ a st', step Demo.os a Demo.midway = Some st' →
            processed (self Demo.midway) ≤ processed (self st') ∧
            results (self Demo.midway) `prefix_of` results (self st')) ∧
  ((∀ pc, pc ∈ threads Demo.midway → pc = WExit) →
   processed (self Demo.midway) =
     Z.of_nat (length (results (self Demo.midway)))) ∧
  (mainpc Demo.midway = MReturned →
   (∀ pc, pc ∈ threads Demo.midway → pc = WExit) ∧
   processed (self Demo.midway) =
     Z.of_nat (length (results (self Demo.midway)))).
Proof.
  apply (record_is_atomic Demo.os 7 (new_checker 2) Demo.files Demo.midway).
  - discriminate.
  - apply exec_reachable.
Defined.

(** In [Demo.midway] thread 0 holds the lock, has appended its result and
    has read the counter, which it is about to write back; thread 1 waits
    for the lock with its own result. *)
Example midway_state :
  lock Demo.midway = Some O ∧
  threads Demo.midway =
    [WIncrWrite (check_file_value Demo.os Demo.missing) 0;
     WAcquire (check_file_value Demo.os Demo.empty)] ∧
  processed (self Demo.midway) = 0 ∧
  length (results (self Demo.midway)) = 1%nat.
Proof. vm_compute. done. Qed.

(** C9, as the code has it. On the empty list [check_batch] returns the
    empty list at once: no thread is started, [check_file] is not called and
    the checker is left as it was, [start_time] included, so that a caller's
    [total_time] is what it was before the call. *)
Theorem check_batch_empty (os : OS) (sched : scheduler) (now : Z)
    (c : FileChecker) :
  check_batch os sched now c [] = (Some [], c) ∧
  check_batch_calls os sched now c [] = [] ∧
  ∀ later, total_time later (snd (check_batch os sched now c [])) =
           total_time later c.
Proof. done. Qed.

(** C9 as the specification words it fails: after [check_batch([])] on a
    new checker there is no elapsed time at all, and on a checker whose last
    batch started at time 0 the elapsed time at time 1000 is 1000. *)
Lemma check_batch_empty_counterexample :
  fst (check_batch Demo.os Demo.first_ready 1000 (new_checker 4) [])
    = Some [] ∧
  total_time 1000
    (snd (check_batch Demo.os Demo.first_ready 1000 (new_checker 4) []))
    = None ∧
  start_time Demo.used = Some 0 ∧
  total_time 1000
    (snd (check_batch Demo.os Demo.first_ready 1000 Demo.used []))
    = Some 1000.
Proof. repeat split; vm_compute; reflexivity. Qed.

(** C10. A call of [check_batch] on a non-empty list starts from
    [processed = 0], [results = []] and [total_files = len(file_list)];
    what it returns and leaves behind does not depend on what the checker
    held before, only on its [max_workers]; and every result returned is the
    result of [check_file] on a path of this list. *)
Theorem check_batch_resets (os : OS) (sched : scheduler) (now : Z)
    (c : FileChecker) (file_list : list pystr) :
  file_list ≠ [] →
  processed (self (init_run now c file_list)) = 0 ∧
  results (self (init_run now c file_list)) = [] ∧
  total_files (self (init_run now c file_list)) =
    Z.of_nat (length file_list) ∧
  check_batch os sched now c file_list =
    check_batch os sched now (new_checker (max_workers c)) file_list ∧
  ∃ rs, fst (check_batch os sched now c file_list) = Some rs ∧
        ∀ r, r ∈ rs →
             ∃ filepath, filepath ∈ file_list ∧ check_file os filepath = Ok r.
Proof.
  intros Hne. do 3 (split; [done|]). split.
  { destruct file_list; [done|]. reflexivity. }
  destruct (check_batch_nonempty os sched now c file_list Hne) as [-> _].
  destruct (batch_returns os sched now c file_list Hne) as (HI & Hm & _).
  fold (batch_end os sched now c file_list) in HI, Hm.
  simpl. rewrite Hm. eexists. split; [done|].
  intros r Hr. by eapply results_of_batch.
Qed.

Lemma check_batch_resets_witness :
  processed (self (init_run 1000 Demo.used Demo.files)) = 0 ∧
  results (self (init_run 1000 Demo.used Demo.files)) = [] ∧
  total_files (self (init_run 1000 Demo.used Demo.files)) =
    Z.of_nat (length Demo.files) ∧
  check_batch Demo.os Demo.shuffled 1000 Demo.used Demo.files =
    check_batch Demo.os Demo.shuffled 1000
      (new_checker (max_workers Demo.used)) Demo.files ∧
  ∃ rs, fst (check_batch Demo.os Demo.shuffled 1000 Demo.used Demo.files)
          = Some rs ∧
        ∀ r, r ∈ rs →
             ∃ filepath, filepath ∈ Demo.files ∧
                         check_file Demo.os filepath = Ok r.
Proof.
  apply (check_batch_resets Demo.os Demo.shuffled 1000 Demo.used Demo.files).
  discriminate.
Defined.

(** The checker [Demo.used] holds the two results of its first batch; the
    second batch returns the four results of its own paths. *)
Example check_batch_reuse :
  (file <$> results Demo.used) = [Demo.broken; Demo.gone] ∧
  (λ rs : list Result, file <$> rs) <$>
    fst (check_batch Demo.os Demo.first_ready 1000 Demo.used Demo.files)
  = Some Demo.files.
Proof. split; vm_compute; reflexivity. Qed.

(** * Further properties *)

(** ** The progress line *)

Lemma bar_filled_bounds (n total : Z) :
  0 ≤ n ≤ total → 0 < total →
  0 ≤ bar_filled n total ≤ 30 ∧ (bar_filled n total = 30 ↔ n = total).
Proof.
  intros Hn Ht. unfold bar_filled, bar_length.
  pose proof (Z.div_mod (30 * n) total) as Hd.
  pose proof (Z.mod_pos_bound (30 * n) total Ht) as Hm.
  split; [nia|]. split; [nia|]. intros ->. nia.
Qed.

Lemma bar_filled_monotone (n n' total : Z) :
  0 < total → n ≤ n' → bar_filled n total ≤ bar_filled n' total.
Proof.
  intros Ht Hn. unfold bar_filled, bar_length.
  apply Z.div_le_mono; lia.
Qed.

Lemma progress_line_ok (c : FileChecker) (result : Result) :
  0 < total_files c →
  0 ≤ processed c ≤ total_files c →
  ∃ pl, progress_line c result = Ok pl ∧
        length (pl_bar pl) = 30%nat ∧
        pl_processed pl = processed c ∧
        pl_total pl = total_files c.
Proof.
  intros Ht Hp. unfold progress_line.
  destruct (Z.eqb_spec (total_files c) 0) as [E|_]; [lia|].
  eexists. split; [done|]. cbn [pl_bar pl_processed pl_total].
  destruct (bar_filled_bounds _ _ Hp Ht) as [Hb _].
  unfold py_repeat, bar_length.
  rewrite length_app, !length_replicate. split; [lia|done].
Qed.

(** X1. [progress_line]: for a count between 0 and a positive total the bar
    has exactly 30 cells; all of them are full blocks only when the count
    has reached the total, and all of them are light only while 30 times
    the count is below the total. *)
Theorem progress_line_bar (c : FileChecker) (result : Result) :
  0 < total_files c →
  0 ≤ processed c ≤ total_files c →
  ∃ pl, progress_line c result = Ok pl ∧
        length (pl_bar pl) = 30%nat ∧
        (pl_bar pl = replicate 30 full_block ↔ processed c = total_files c) ∧
        (pl_bar pl = replicate 30 light_shade ↔
         30 * processed c < total_files c).
Proof.
  intros Ht Hp. unfold progress_line.
  destruct (Z.eqb_spec (total_files c) 0) as [E|_]; [lia|].
  eexists. split; [done|]. cbn [pl_bar].
  destruct (bar_filled_bounds _ _ Hp Ht) as [Hb Hfull].
  set (k := bar_filled (processed c) (total_files c)) in *.
  unfold py_repeat, bar_length.
  assert (∃ a b, Z.to_nat k = a ∧ Z.to_nat (30 - k) = b ∧ (a + b = 30)%nat
                 ∧ (a = 30%nat ↔ k = 30) ∧ (a = 0%nat ↔ k = 0))
    as (a & b & -> & -> & Hab & Ha & Ha0).
  { eexists _, _. repeat split; lia. }
  split; [by rewrite length_app, !length_replicate|].
  assert (k = 0 ↔ 30 * processed c < total_files c) as Hk0.
  { unfold k, bar_filled, bar_length.
    pose proof (Z.div_mod (30 * processed c) (total_files c)) as Hd.
    pose proof (Z.mod_pos_bound (30 * processed c) _ Ht) as Hm.
    split; nia. }
  rewrite <-Hfull, <-Hk0, <-Ha, <-Ha0. clear -Hab.
  split; split.
  - intros H. destruct (decide (a = 30%nat)) as [|Hne]; [done|].
    apply (f_equal (λ l : list N, l !! a)) in H. cbv beta in H.
    rewrite lookup_app_r in H by (rewrite length_replicate; lia).
    rewrite length_replicate, Nat.sub_diag in H.
    rewrite (lookup_replicate_2 30) in H by lia.
    destruct b; [lia|]. discriminate.
  - intros ->. assert (b = 0%nat) as -> by lia. by rewrite app_nil_r.
  - intros H. destruct a; [done|].
    apply (f_equal (λ l : list N, l !! 0%nat)) in H. discriminate.
  - intros ->. by assert (b = 30%nat) as -> by lia.
Qed.

Section BatchExtras.
Context (os : OS).
Implicit Types st : Run.

Lemma in_order_reachable file_list now c st :
  file_list ≠ [] → (max_workers c ≤ 1) →
  reachable os (init_run now c file_list) st →
  in_order os file_list st.
Proof.
  intros Hne Hmw Hr.
  assert (Inv os file_list (init_run now c file_list) ∧
          (nrange (init_run now c file_list) ≤ 1)%nat ∧
          in_order os file_list (init_run now c file_list)) as H0.
  { split; [by apply Inv_init|]. split; [simpl; lia|].
    split; simpl; by rewrite foldl_queue_put. }
  induction Hr as [|st1 st2 st3 [a Ha] _ IH]; [by destruct H0 as (_ & _ & ?)|].
  destruct H0 as (HI & Hn & HO). apply IH.
  split; [by eapply Inv_step|].
  split; [by rewrite (step_nrange _ _ _ _ Ha)|by eapply in_order_step].
Qed.

(** X2. At every progress line of a batch the counter shown is between 1 and
    the number of paths, it is the number of results recorded, the result
    shown is the last one recorded, and the bar has its 30 cells. *)
Theorem progress_in_batch (now : Z) (c : FileChecker)
    (file_list : list pystr) (st : Run) (t : nat) (result : Result) :
  file_list ≠ [] →
  reachable os (init_run now c file_list) st →
  threads st !! t = Some (WProgress result) →
  ∃ pl, progress_line (self st) result = Ok pl ∧
        length (pl_bar pl) = 30%nat ∧
        pl_total pl = Z.of_nat (length file_list) ∧
        1 ≤ pl_processed pl ≤ Z.of_nat (length file_list) ∧
        pl_processed pl = Z.of_nat (length (results (self st))) ∧
        last (results (self st)) = Some result.
Proof.
  intros Hne Hr Ht.
  destruct (last_recorded_reachable os file_list now c st Hne Hr) as [HI HL].
  pose proof (HL _ _ _ Ht eq_refl) as Hlast.
  pose proof (inv_mutex _ _ _ HI _ _ Ht I) as Hl.
  pose proof (inv_lock _ _ _ HI) as Hlk. rewrite Hl in Hlk.
  destruct Hlk as (pc & Ht' & _ & Hk). rewrite Ht in Ht'. simplify_eq.
  simpl in Hk. pose proof (results_bounded _ _ _ HI) as Hb.
  pose proof (inv_total _ _ _ HI) as Htot.
  assert (1 ≤ length (results (self st)))%nat as H1.
  { destruct (results (self st)); [done|simpl; lia]. }
  destruct (progress_line_ok (self st) result) as (pl & Hpl & Hlen & Hp & Htl);
    [lia|lia|].
  exists pl. rewrite Hp, Htl. repeat split; try done; lia.
Qed.

(** X3. In a batch a worker ends in one of two ways: it found the queue
    empty (line 101), or the write of its progress line raised (lines
    119-121) after it had recorded its result, and the [with] block
    released the lock.  When the console takes every progress line of the
    batch, a worker ends only on the empty queue. *)
Theorem worker_ends (now : Z) (c : FileChecker)
    (file_list : list pystr) (st st' : Run) (t : nat) :
  file_list ≠ [] →
  reachable os (init_run now c file_list) st →
  step os (Worker t) st = Some st' →
  threads st' !! t = Some WExit →
  ((threads st !! t = Some WGet ∧ file_queue st = []) ∨
   (∃ result e,
      threads st !! t = Some (WProgress result) ∧
      last (results (self st)) = Some result ∧
      stdout_write os (processed (self st)) (total_files (self st))
        (readable result) (take 30 (filename result)) = Raised e ∧
      lock st = Some t ∧ lock st' = None)) ∧
  (console_shows os file_list = true →
   threads st !! t = Some WGet ∧ file_queue st = []).
Proof.
  intros Hne Hr H Hx.
  destruct (batch_invariants os file_list now c st Hne Hr)
    as (HI & HL & _ & _).
  pose proof (inv_total _ _ _ HI) as Htot.
  simpl in H. destruct (threads st !! t) as [pc|] eqn:Hpc; [|done].
  assert (t < length (threads st))%nat by (by eapply lookup_lt_Some).
  destruct pc; simpl in H.
  - destruct (file_queue st); [by split; [left|]|]. simplify_eq. revert Hx.
    run_simpl. by rewrite list_lookup_insert_eq.
  - rewrite check_file_returns in H. simplify_eq. revert Hx. run_simpl.
    by rewrite list_lookup_insert_eq.
  - destruct (lock st); simplify_eq. revert Hx. run_simpl.
    by rewrite list_lookup_insert_eq.
  - simplify_eq. revert Hx. run_simpl. by rewrite list_lookup_insert_eq.
  - simplify_eq. revert Hx. run_simpl. by rewrite list_lookup_insert_eq.
  - simplify_eq. revert Hx. run_simpl. by rewrite list_lookup_insert_eq.
  - destruct (Z.eqb_spec (total_files (self st)) 0) as [E|_].
    { destruct file_list; [done|]. simpl in Htot. lia. }
    destruct (stdout_write _ _ _ _ _) as [u|e] eqn:Hw.
    { simplify_eq. revert Hx. run_simpl. by rewrite list_lookup_insert_eq. }
    simplify_eq. split.
    + right. exists result, e. split; [done|].
      split; [by apply (HL _ _ _ Hpc)|]. split; [done|].
      split; [by apply (inv_mutex _ _ _ HI _ _ Hpc)|done].
    + intros Hc.
      destruct (progress_write_shown os file_list st t result Hc HI HL Hpc)
        as [u Hu]. congruence.
  - simplify_eq. revert Hx. run_simpl. by rewrite list_lookup_insert_eq.
  - done.
Qed.

(** X4. A batch never runs more threads than [max_workers] or than it has
    paths, and when it returns it has started exactly
    [min(max_workers, len(file_list))] threads (none if that is negative),
    all of which have ended. *)
Theorem threads_started (now : Z) (c : FileChecker)
    (file_list : list pystr) (st : Run) :
  file_list ≠ [] →
  reachable os (init_run now c file_list) st →
  Z.of_nat (length (threads st)) ≤
    Z.max 0 (Z.min (max_workers c) (Z.of_nat (length file_list))) ∧
  (mainpc st = MReturned →
   Z.of_nat (length (threads st)) =
     Z.max 0 (Z.min (max_workers c) (Z.of_nat (length file_list))) ∧
   ∀ pc, pc ∈ threads st → pc = WExit).
Proof.
  intros Hne Hr.
  assert (Inv os file_list st) as HI
    by (eapply Inv_reachable; [by apply Inv_init|done]).
  pose proof (reachable_nrange _ _ _ Hr) as Hn. simpl in Hn.
  pose proof (inv_spawned _ _ _ HI) as Hsp.
  split; [lia|]. intros Hm.
  pose proof (inv_main _ _ _ HI) as Hmn. rewrite Hm in Hmn.
  destruct Hmn as [Hlen Hall]. split; [lia|done].
Qed.

(** X5. What a batch with at least one worker leaves in the checker:
    [results] is the list returned, which holds at least one result and at
    most one per path, [processed] is its length, [total_files] is the
    number of paths, [start_time] is the time of the call and
    [max_workers] is unchanged.  When the console takes every progress line,
    [processed] and [total_files] agree. *)
Theorem check_batch_leaves (sched : scheduler) (now : Z) (c : FileChecker)
    (file_list : list pystr) :
  1 ≤ max_workers c →
  file_list ≠ [] →
  ∃ rs, check_batch os sched now c file_list =
          (Some rs,
           {| max_workers := max_workers c; results := rs;
              total_files := Z.of_nat (length file_list);
              processed := Z.of_nat (length rs);
              start_time := Some now |}) ∧
        (1 ≤ length rs ≤ length file_list)%nat ∧
        (console_shows os file_list = true → length rs = length file_list).
Proof.
  intros Hmw Hne.
  destruct (check_batch_partial os sched now c file_list)
    as (rs & rest & Hrs & Hc & Hperm & _ & Hone & Hall).
  rewrite decide_False in Hc by done.
  apply Permutation_length in Hperm.
  rewrite length_app, !length_fmap in Hperm.
  exists rs. split; [|split].
  - destruct (check_batch os sched now c file_list). simpl in *. by subst.
  - specialize (Hone Hmw Hne). destruct rs; [done|simpl in *; lia].
  - intros Hsh. rewrite (Hall Hmw Hsh) in Hperm. simpl in Hperm. lia.
Qed.

(** X7. As [main] calls it, with a thread count in [1,16] and only on a
    non-empty list, [check_batch] returns a list that is not empty, with at
    most one result per path and one per path when the console takes every
    progress line, and the elapsed time the caller computes is the time
    since this call started, whatever the checker held from earlier
    batches. *)
Theorem run_from_main_timed (sched : scheduler) (now later : Z)
    (settings_threads : Z) (checker : FileChecker) (file_list : list pystr) :
  1 ≤ settings_threads ≤ 16 →
  file_list ≠ [] →
  ∃ rs checker',
    run_from_main os sched now later settings_threads checker file_list
      = Some (Some rs, Some (later - now), checker') ∧
    rs ≠ [] ∧ (length rs ≤ length file_list)%nat ∧
    (console_shows os file_list = true → length rs = length file_list) ∧
    max_workers checker' = settings_threads.
Proof.
  intros [Hmw _] Hne. unfold run_from_main.
  destruct file_list as [|p l] eqn:El; [done|]. rewrite <-El in *.
  set (c := set_max_workers settings_threads checker).
  destruct (check_batch_partial os sched now c file_list)
    as (rs & rest & Hrs & Hc & Hperm & _ & Hone & Hall).
  rewrite decide_False in Hc by done.
  apply Permutation_length in Hperm.
  rewrite length_app, !length_fmap in Hperm.
  destruct (check_batch os sched now c file_list) as [o c'].
  simpl in Hrs, Hc. subst o c'. eexists _, _. split; [done|].
  split; [by apply Hone|]. split; [lia|]. split; [|done].
  intros Hsh. rewrite (Hall Hmw Hsh) in Hperm. simpl in Hperm. lia.
Qed.

(** X6. With one worker the calls of [check_file] follow the input: the
    paths checked are a prefix of the list, in its order, and the results
    returned are theirs, in the same order.  When the console takes every
    progress line the prefix is the whole list. *)
Theorem single_worker_in_order (sched : scheduler) (now : Z)
    (c : FileChecker) (file_list : list pystr) :
  max_workers c = 1 →
  ∃ rs, fst (check_batch os sched now c file_list) = Some rs ∧
        check_batch_calls os sched now c file_list `prefix_of` file_list ∧
        Forall2 (λ filepath r, check_file os filepath = Ok r)
          (check_batch_calls os sched now c file_list) rs ∧
        file <$> rs = check_batch_calls os sched now c file_list ∧
        (console_shows os file_list = true →
         check_batch_calls os sched now c file_list = file_list).
Proof.
  intros Hmw.
  destruct (decide (file_list = [])) as [->|Hne].
  { exists []. repeat split; [done|constructor]. }
  destruct (check_batch_nonempty os sched now c file_list Hne) as [-> ->].
  destruct (batch_returns os sched now c file_list Hne) as (HI & Hm & Hn).
  fold (batch_end os sched now c file_list) in HI, Hm, Hn.
  destruct (returned_exit os file_list _ HI Hm) as [Hex Hall].
  { rewrite Hn. destruct file_list; [done|]. simpl length. lia. }
  destruct (batch_invariants os file_list now c
              (batch_end os sched now c file_list) Hne)
    as (_ & _ & _ & HD); [apply exec_reachable|].
  destruct (in_order_reachable file_list now c
              (batch_end os sched now c file_list) Hne) as [Hres Hchk];
    [lia|apply exec_reachable|].
  rewrite (mjoin_all_exit (inflight os)) in Hres by done.
  rewrite (mjoin_all_exit unchecked) in Hchk by done.
  simpl in Hres, Hchk. simpl. rewrite Hm.
  set (st := batch_end os sched now c file_list) in *.
  assert (results (self st) = check_file_value os <$> checked st) as ->.
  { apply (app_inv_tail (check_file_value os <$> file_queue st)).
    by rewrite Hres, <-fmap_app, Hchk. }
  eexists. split; [done|].
  split; [by eexists|]. split; [|split].
  - apply Forall2_fmap_r, Forall_Forall2_diag, Forall_forall.
    intros p _. apply check_file_returns.
  - apply fmap_file_check_file_value.
  - intros Hc. rewrite (HD Hc Hex) in Hchk. by rewrite app_nil_r in Hchk.
Qed.

End BatchExtras.

(** ** More on [check_file] *)

(** X8. A result of [check_file] has an ['error'] exactly when it is not
    readable, and the ['error'] is never empty nor longer than 56
    characters (a prefix of 6 and at most 50 of [str(e)]). *)
Theorem check_file_error_bounded (os : OS) (filepath : pystr) :
  ∃ r, check_file os filepath = Ok r ∧
       match error r with
       | Some e => readable r = false ∧ (0 < length e ≤ 56)%nat
       | None => readable r = true
       end.
Proof.
  destruct (check_file_cases os filepath) as (r & Hr & Hc).
  exists r. split; [done|].
  destruct Hc as [He|e He Hs|He Hs|sz u He Hs Hz Ho|sz e He Hs Hz Ho]; simpl;
    try done.
  all: split; [done|]; try destruct (is_PermissionError e).
  all: rewrite ?length_app, ?length_take;
    unfold msg_not_exist, msg_check_error, msg_empty, msg_permission,
      msg_read_failed; cbn [length]; rewrite ?length_take; lia.
Qed.

(** X9. The result of [check_file] carries the path as given and its
    basename, ['exists'] is the answer of [os.path.exists], and
    ['readable'] is true exactly when the path exists, its size could be
    taken and is not 0 (it is then the ['size'] of the result), and the
    first [min(4096, size)] bytes could be read. *)
Theorem check_file_readable_iff (os : OS) (filepath : pystr) :
  ∃ r, check_file os filepath = Ok r ∧
       file r = filepath ∧
       filename r = os_path_basename os filepath ∧
       exists_ r = os_path_exists os filepath ∧
       (readable r = true ↔
        os_path_exists os filepath = true ∧
        ∃ sz u, os_path_getsize os filepath = Ok sz ∧ sz ≠ 0 ∧
                size r = sz ∧
                open_rb_read os filepath (Z.min 4096 sz) = Ok u).
Proof.
  destruct (check_file_cases os filepath) as (r & Hr & Hc).
  exists r. split; [done|].
  destruct Hc as [He|e He Hs|He Hs|sz u He Hs Hz Ho|sz e He Hs Hz Ho]; simpl;
    rewrite He; (do 3 (split; [done|])); (split; [|intros (? & sz' & u' & Hs' & Hz' & ? & Ho')]);
    try done; try congruence.
  intros _. split; [done|]. by exists sz, u.
Qed.

Lemma check_file_exists (os : OS) (filepath : pystr) :
  os_path_exists os filepath = true →
  exists_ (check_file_value os filepath) = true ∧
  error (check_file_value os filepath) ≠ Some msg_not_exist.
Proof.
  intros He. pose proof (check_file_returns os filepath) as Hv.
  destruct (check_file_cases os filepath) as (r & Hr & Hc).
  rewrite Hv in Hr. injection Hr as <-.
  destruct Hc as [He'|e _ _|_ _|sz u _ _ _ _|sz e _ _ _ _]; simpl;
    [congruence|done..|].
  split; [done|]. by destruct (is_PermissionError e).
Qed.

Lemma check_file_listed (os : OS) (filepath : pystr) (r : Result) :
  check_file os filepath = Ok r → is_listed r = negb (readable r).
Proof.
  intros Hr. destruct (check_file_cases os filepath) as (r' & Hr' & Hc).
  rewrite Hr in Hr'. injection Hr' as <-.
  destruct Hc as [He|e He Hs|He Hs|sz u He Hs Hz Ho|sz e He Hs Hz Ho];
    try done.
  unfold is_listed. simpl. by destruct (is_PermissionError e).
Qed.

(** ** [get_settings] *)

Lemma read_threads_range lib a s :
  1 ≤ Settings.threads s ≤ 16 →
  1 ≤ Settings.threads (read_threads lib a s) ≤ 16.
Proof.
  intros Hs. unfold read_threads.
  destruct (str_true _); [|done]. destruct (py_int _ _) as [n|]; [|done].
  destruct (Z.leb_spec 1 n); [|done]. destruct (Z.leb_spec n 16); [|done].
  simpl. lia.
Qed.

(** X10. Whatever is typed, and wherever Ctrl+C is pressed, [get_settings]
    returns settings whose thread count is between 1 and 16; it raises only
    when [input()] meets the end of its input. *)
Theorem get_settings_threads_range (lib : PyStr)
    (in1 in2 in3 : input_event) :
  match get_settings lib in1 in2 in3 with
  | Ok s => 1 ≤ Settings.threads s ≤ 16
  | Raised _ => in1 = EOFError ∨ in2 = EOFError ∨ in3 = EOFError
  end.
Proof.
  assert (1 ≤ Settings.threads Settings.default ≤ 16) as H0 by (simpl; lia).
  destruct in1 as [a1| |]; simpl; [|done|by left].
  pose proof (read_threads_range lib a1 _ H0) as H1.
  destruct in2 as [a2| |]; simpl; [|done|by right; left].
  assert (Settings.threads (read_extensions lib a2
            (read_threads lib a1 Settings.default))
          = Settings.threads (read_threads lib a1 Settings.default)) as E.
  { unfold read_extensions. by destruct (str_true _). }
  destruct in3 as [a3| |]; simpl; [| |by right; right]; by rewrite E.
Qed.

(** X11. The thread count of the settings is the number typed at the first
    prompt when, stripped, it is not empty, [int] accepts it and it is
    between 1 and 16, and 4 otherwise; what happens at the later prompts,
    Ctrl+C included, does not change it. *)
Theorem get_settings_threads (lib : PyStr) (a1 : pystr)
    (in2 in3 : input_event) (s : Settings.t) :
  get_settings lib (Line a1) in2 in3 = Ok s →
  Settings.threads s =
    match py_int lib (str_strip lib a1) with
    | Ok n =>
        if str_true (str_strip lib a1) && (1 <=? n) && (n <=? 16)
        then n else 4
    | Raised _ => 4
    end.
Proof.
  intros H.
  assert (Settings.threads s =
          Settings.threads (read_threads lib a1 Settings.default)) as ->.
  { simpl in H. destruct in2 as [a2| |]; simplify_eq; [|done].
    assert (∀ s', Settings.threads (read_extensions lib a2 s')
                  = Settings.threads s') as E.
    { intros s'. unfold read_extensions. by destruct (str_true _). }
    destruct in3 as [a3| |]; simplify_eq; simpl; by rewrite E. }
  unfold read_threads. destruct (str_true _); simpl.
  - destruct (py_int _ _) as [n|]; [|done].
    by destruct (1 <=? n), (n <=? 16).
  - by destruct (py_int _ _).
Qed.

(** ** [scan_directory] *)

Section Scan.
Context (lib : PyStr) (fs : FS).

Lemma scan_keep_spec extensions name full_path file_list :
  scan_keep lib fs extensions name full_path file_list =
    file_list ++ (if scan_match lib fs extensions name then [full_path] else []).
Proof.
  unfold scan_keep, scan_match. destruct (list_true extensions); [|done].
  destruct (bool_decide _); [done|by rewrite app_nil_r].
Qed.

Lemma scan_files_spec extensions root files file_list :
  foldl (λ file_list file,
           scan_keep lib fs extensions file (os_path_join fs root file)
             file_list)
        file_list files =
    file_list ++
    (os_path_join fs root <$>
       filter (λ file, scan_match lib fs extensions file = true) files).
Proof.
  revert file_list. induction files as [|file files IH]; intros file_list; simpl.
  - by rewrite app_nil_r.
  - rewrite IH, scan_keep_spec, filter_cons.
    destruct (scan_match lib fs extensions file); simpl;
      by rewrite <-?(assoc_L (++)), ?app_nil_r.
Qed.

Lemma scan_walk_spec extensions
    (walk : list (pystr * list pystr * list pystr)) file_list :
  foldl (λ file_list '(root, _, files),
           foldl (λ file_list file,
                    scan_keep lib fs extensions file
                      (os_path_join fs root file) file_list)
                 file_list files)
        file_list walk =
    file_list ++
    mjoin ((λ '(root, _, files),
              os_path_join fs root <$>
                filter (λ file, scan_match lib fs extensions file = true)
                  files) <$> walk).
Proof.
  revert file_list.
  induction walk as [|[[root dirs] files] walk IH]; intros file_list; simpl.
  - by rewrite app_nil_r.
  - by rewrite IH, scan_files_spec, <-(assoc_L (++)).
Qed.

Lemma scan_items_spec extensions directory items file_list :
  foldl (λ file_list item,
           let full_path := os_path_join fs directory item in
           if os_path_isfile fs full_path
           then scan_keep lib fs extensions item full_path file_list
           else file_list)
        file_list items =
    file_list ++
    (os_path_join fs directory <$>
       filter (λ item,
                 os_path_isfile fs (os_path_join fs directory item) = true ∧
                 scan_match lib fs extensions item = true) items).
Proof.
  revert file_list. induction items as [|item items IH]; intros file_list; simpl.
  - by rewrite app_nil_r.
  - rewrite IH, filter_cons.
    destruct (os_path_isfile fs (os_path_join fs directory item)) eqn:Hf.
    + rewrite scan_keep_spec.
      destruct (scan_match lib fs extensions item) eqn:Hm.
      * rewrite decide_True by done. simpl. by rewrite <-(assoc_L (++)).
      * rewrite decide_False by (intros [_ ?]; done). by rewrite app_nil_r.
    + by rewrite decide_False by (intros [? _]; done).
Qed.

Lemma filter_sublist_impl {A} (P Q : A → Prop)
    `{∀ x, Decision (P x)} `{∀ x, Decision (Q x)} (l : list A) :
  (∀ x, P x → Q x) → filter P l `sublist_of` filter Q l.
Proof.
  intros HPQ. induction l as [|x l IH]; [done|]. rewrite !filter_cons.
  destruct (decide (P x)) as [HP|HP].
  - rewrite decide_True by auto. by constructor.
  - destruct (decide (Q x)); [by constructor|done].
Qed.

(** X12. The extension filter only removes entries: what a filtered scan
    returns is, in the same order, part of what the unfiltered scan of the
    same directory returns. *)
Theorem scan_directory_filter_sublist (directory : pystr) (recursive : bool)
    (extensions : option (list pystr)) (file_list : list pystr) :
  scan_directory lib fs directory recursive extensions = Ok file_list →
  ∃ all_files,
    scan_directory lib fs directory recursive None = Ok all_files ∧
    file_list `sublist_of` all_files.
Proof.
  unfold scan_directory.
  destruct (os_path_isdir fs directory); simpl; [|by intros [= <-]; eexists].
  destruct recursive.
  - intros [= <-]. eexists. split; [done|]. rewrite !scan_walk_spec. simpl.
    induction (os_walk fs directory) as [|[[root dirs] files] walk IH];
      [done|].
    simpl. apply sublist_app; [|done]. apply fmap_sublist.
    by apply filter_sublist_impl.
  - destruct (os_listdir fs directory) as [items|e]; [|done].
    intros [= <-]. eexists. split; [done|]. rewrite !scan_items_spec. simpl.
    apply fmap_sublist, filter_sublist_impl. by intros item [? _].
Qed.

(** X13. What a recursive scan returns: the joined path of every file that
    [os.walk] lists and the filter lets through, and nothing else. *)
Theorem scan_directory_recursive_elem (directory : pystr)
    (extensions : option (list pystr)) :
  os_path_isdir fs directory = true →
  ∃ file_list,
    scan_directory lib fs directory true extensions = Ok file_list ∧
    ∀ p, p ∈ file_list ↔
         ∃ root dirs files file,
           (root, dirs, files) ∈ os_walk fs directory ∧ file ∈ files ∧
           p = os_path_join fs root file ∧
           scan_match lib fs extensions file = true.
Proof.
  intros Hd. unfold scan_directory. rewrite Hd. simpl.
  eexists. split; [done|]. intros p. rewrite scan_walk_spec. simpl.
  rewrite list_elem_of_join. split.
  - intros (l & Hp & Hl). apply list_elem_of_fmap in Hl as ([[root dirs] files] & -> & Hw).
    apply list_elem_of_fmap in Hp as (file & -> & Hf).
    apply list_elem_of_filter in Hf as [Hm Hf]. by exists root, dirs, files, file.
  - intros (root & dirs & files & file & Hw & Hf & -> & Hm).
    eexists. split; [|apply list_elem_of_fmap; by exists (root, dirs, files)].
    simpl. apply list_elem_of_fmap. exists file. split; [done|].
    by apply list_elem_of_filter.
Qed.

(** X14. What a scan of one level returns or raises: it raises what
    [os.listdir] raises, and otherwise returns the joined path of every
    entry that is a file and passes the filter. *)
Theorem scan_directory_flat (directory : pystr)
    (extensions : option (list pystr)) :
  os_path_isdir fs directory = true →
  match os_listdir fs directory with
  | Raised e => scan_directory lib fs directory false extensions = Raised e
  | Ok items =>
      ∃ file_list,
        scan_directory lib fs directory false extensions = Ok file_list ∧
        ∀ p, p ∈ file_list ↔
             ∃ item, item ∈ items ∧ p = os_path_join fs directory item ∧
                     os_path_isfile fs p = true ∧
                     scan_match lib fs extensions item = true
  end.
Proof.
  intros Hd. unfold scan_directory. rewrite Hd. simpl.
  destruct (os_listdir fs directory) as [items|e]; [|done].
  eexists. split; [done|]. intros p. rewrite scan_items_spec. simpl.
  rewrite list_elem_of_fmap. split.
  - intros (item & -> & [[Hf Hm] Hi]%list_elem_of_filter). by exists item.
  - intros (item & Hi & -> & Hf & Hm). exists item. split; [done|].
    by apply list_elem_of_filter.
Qed.

End Scan.

(** ** [load_file_list] *)

Section Load.
Context (lib : PyStr) (os : OS) (fs : FS).

Lemma load_lines_spec lines file_list :
  foldl (λ file_list line,
           let line := str_strip lib line in
           if str_true line && negb (startswith_hash line) then
             if os_path_exists os line
             then file_list ++ [line]
             else file_list
           else file_list)
        file_list lines =
    file_list ++
    filter (λ line, load_keep os line = true) (str_strip lib <$> lines).
Proof.
  revert file_list. induction lines as [|line lines IH]; intros file_list; simpl.
  - by rewrite app_nil_r.
  - rewrite IH, filter_cons.
    destruct (load_keep os (str_strip lib line)) eqn:Hk; unfold load_keep in Hk.
    + rewrite decide_True by done.
      apply andb_true_iff in Hk as [-> ->]. by rewrite <-(assoc_L (++)).
    + rewrite decide_False by done.
      destruct (str_true _ && negb _); [|done]. simpl in Hk. by rewrite Hk.
Qed.

(** X15. What [load_file_list] returns: the stripped lines of the list file, in
    their order, that are not empty, do not start with [#] and name an
    existing path; nothing if the list file itself does not exist. *)
Theorem load_file_list_spec (filename : pystr) (file_list : list pystr) :
  load_file_list lib os fs filename = Ok file_list →
  Forall (λ p, p ≠ [] ∧ startswith_hash p = false ∧
               os_path_exists os p = true) file_list ∧
  (os_path_exists os filename = false → file_list = []) ∧
  (os_path_exists os filename = true →
   ∃ lines, open_r_lines fs filename = Ok lines ∧
            file_list =
              filter (λ line, load_keep os line = true)
                (str_strip lib <$> lines)).
Proof.
  unfold load_file_list. destruct (os_path_exists os filename); simpl.
  - destruct (open_r_lines fs filename) as [lines|e]; [|done].
    intros [= <-]. rewrite load_lines_spec. simpl. split; [|split; [done|]].
    + apply Forall_forall. intros p [Hk _]%list_elem_of_filter.
      unfold load_keep in Hk.
      apply andb_true_iff in Hk as [[H1 H2]%andb_true_iff H3].
      apply negb_true_iff in H2. by destruct p.
    + intros _. by exists lines.
  - intros [= <-]. split; [done|]. split; [done|]. done.
Qed.

End Load.

(** ** A batch over a loaded list *)

(** X16. A batch over the list that [load_file_list] returned, on the file
    system as it was when the list was loaded, returns at most one result
    per listed path, one per listed path when the console takes every
    progress line, and none of them is a missing file. *)
Theorem load_file_list_batch (lib : PyStr) (os : OS) (fs : FS)
    (filename : pystr) (file_list : list pystr) (sched : scheduler)
    (now : Z) (c : FileChecker) :
  load_file_list lib os fs filename = Ok file_list →
  1 ≤ max_workers c ≤ 16 →
  ∃ rs, fst (check_batch os sched now c file_list) = Some rs ∧
        (length rs ≤ length file_list)%nat ∧
        (console_shows os file_list = true →
         length rs = length file_list) ∧
        Forall (λ r, exists_ r = true ∧ error r ≠ Some msg_not_exist) rs.
Proof.
  intros Hload [Hmw _].
  assert (Forall (λ p, os_path_exists os p = true) file_list) as Hex.
  { revert Hload. unfold load_file_list.
    destruct (os_path_exists os filename); simpl; [|by intros [= <-]].
    destruct (open_r_lines fs filename) as [lines|e]; [|done].
    intros [= <-]. rewrite load_lines_spec. simpl.
    apply Forall_forall. intros p [Hk _]%list_elem_of_filter.
    unfold load_keep in Hk. by apply andb_true_iff in Hk as [_ ?]. }
  destruct (check_batch_partial os sched now c file_list)
    as (rs & rest & Hrs & _ & Hperm & _ & _ & Hall).
  assert (rs ⊆+ check_file_value os <$> file_list) as Hsub.
  { rewrite <-Hperm. by apply submseteq_inserts_r. }
  apply Permutation_length in Hperm.
  rewrite length_app, !length_fmap in Hperm.
  exists rs. split; [done|]. split; [lia|]. split.
  - intros Hsh. rewrite (Hall Hmw Hsh) in Hperm. simpl in Hperm. lia.
  - apply Forall_forall. intros r Hr.
    eapply elem_of_submseteq in Hr; [|exact Hsub].
    apply list_elem_of_fmap in Hr as (p & -> & Hp).
    rewrite Forall_forall in Hex. by apply check_file_exists, Hex.
Qed.

(** ** [show_results_summary]: the grouping by error *)

Section Groups.
Implicit Types (d : ErrorGroups) (k : pystr) (r : Result).

Lemma group_errors_snoc results r :
  group_errors (results ++ [r]) = errors_step (group_errors results) r.
Proof. unfold group_errors. by rewrite foldl_snoc. Qed.

Lemma errors_get_append_eq k r d :
  errors_get k (errors_append k r d) = Some (default [] (errors_get k d) ++ [r]).
Proof.
  induction d as [|[k' files] d IH]; simpl.
  - by case_decide.
  - destruct (decide (k' = k)) as [->|Hne]; simpl; by case_decide.
Qed.

Lemma errors_get_append_ne k k' r d :
  k ≠ k' → errors_get k' (errors_append k r d) = errors_get k' d.
Proof.
  intros Hne. induction d as [|[k0 files] d IH]; simpl.
  - by case_decide.
  - destruct (decide (k0 = k)) as [->|Hne0]; simpl; by repeat case_decide.
Qed.

Lemma errors_get_None k d : errors_get k d = None ↔ k ∉ d.*1.
Proof.
  induction d as [|[k' files] d IH]; simpl.
  - split; [intros _; apply not_elem_of_nil|done].
  - rewrite not_elem_of_cons. destruct (decide (k' = k)) as [->|Hne].
    + split; [done|]. by intros [? _].
    + rewrite IH. split; [done|]. by intros [_ ?].
Qed.

Lemma errors_append_keys k r d :
  (errors_append k r d).*1 =
    match errors_get k d with
    | Some _ => d.*1
    | None => d.*1 ++ [k]
    end.
Proof.
  induction d as [|[k' files] d IH]; [done|].
  cbn [errors_append errors_get].
  destruct (decide (k' = k)) as [->|Hne]; [done|].
  rewrite !fmap_cons, IH. by destruct (errors_get k d).
Qed.

Lemma errors_append_size k r d :
  sum_list_with (λ g, length (snd g)) (errors_append k r d) =
    S (sum_list_with (λ g, length (snd g)) d).
Proof.
  induction d as [|[k' files] d IH]; simpl; [done|].
  destruct (decide (k' = k)) as [->|Hne]; simpl.
  - rewrite length_app. simpl. lia.
  - rewrite IH. lia.
Qed.

Lemma elem_of_errors_get k files d :
  NoDup d.*1 → (k, files) ∈ d ↔ errors_get k d = Some files.
Proof.
  induction d as [|[k' fs'] d IH]; simpl; intros Hnd.
  - split; [by intros ?%elem_of_nil|done].
  - apply NoDup_cons in Hnd as [Hk' Hnd]. rewrite elem_of_cons, (IH Hnd).
    destruct (decide (k' = k)) as [->|Hne].
    + split; [|by intros [= ->]; left].
      intros [[= ->]|Hg]; [done|]. apply errors_get_None in Hk'. congruence.
    + split; [|by right]. intros [[= ? ?]|?]; done.
Qed.

Lemma group_errors_NoDup results : NoDup (group_errors results).*1.
Proof.
  induction results as [|r results IH] using rev_ind; [constructor|].
  rewrite group_errors_snoc. unfold errors_step.
  destruct (error r) as [e|]; [|done].
  destruct (negb (readable r) && str_true e); [|done].
  rewrite errors_append_keys.
  destruct (errors_get e (group_errors results)) eqn:Hg; [done|].
  apply NoDup_app. split; [done|]. split; [|apply NoDup_singleton].
  intros k Hk ->%list_elem_of_singleton. by apply errors_get_None in Hg.
Qed.

Lemma group_errors_get results k :
  errors_get k (group_errors results) =
    match filter (λ r, readable r = false ∧ error r = Some k) results with
    | [] => None
    | files => if str_true k then Some files else None
    end.
Proof.
  induction results as [|r results IH] using rev_ind; [done|].
  rewrite group_errors_snoc, filter_app, filter_cons, filter_nil.
  unfold errors_step.
  destruct (decide (readable r = false ∧ error r = Some k)) as [[Hb He]|Hn].
  - rewrite He, Hb. simpl. destruct (str_true k) eqn:Hk.
    + rewrite errors_get_append_eq, IH.
      by destruct (filter _ results).
    + rewrite IH. destruct (filter _ results); by simpl.
  - rewrite app_nil_r. destruct (error r) as [e|] eqn:He; [|done].
    destruct (negb (readable r) && str_true e) eqn:Hc; [|done].
    rewrite errors_get_append_ne; [done|]. intros ->.
    apply andb_true_iff in Hc as [Hb%negb_true_iff _]. by destruct Hn.
Qed.

(** X17. The headings are distinct, and under each stand, in their order,
    exactly the results that are not readable and carry that error; a
    heading is a non-empty error with at least one such result. *)
Theorem group_errors_spec (results : list Result) :
  NoDup (group_errors results).*1 ∧
  ∀ k files,
    (k, files) ∈ group_errors results ↔
    str_true k = true ∧ files ≠ [] ∧
    files = filter (λ r, readable r = false ∧ error r = Some k) results.
Proof.
  split; [apply group_errors_NoDup|]. intros k files.
  rewrite elem_of_errors_get by apply group_errors_NoDup.
  rewrite group_errors_get.
  destruct (filter _ results) as [|r fl] eqn:Hf.
  - split; [done|]. by intros (_ & ? & ->).
  - destruct (str_true k); [|split; [done|by intros (? & _)]].
    split; [by intros [= <-]|]. by intros (_ & _ & ->).
Qed.

Lemma group_errors_size results :
  sum_list_with (λ g, length (snd g)) (group_errors results) =
    length (filter (λ r, is_listed r = true) results).
Proof.
  induction results as [|r results IH] using rev_ind; [done|].
  rewrite group_errors_snoc, filter_app, length_app, filter_cons, filter_nil.
  unfold errors_step.
  destruct (decide (is_listed r = true)) as [Hl|Hl]; unfold is_listed in Hl;
    destruct (error r) as [e|]; simpl length.
  - rewrite Hl, errors_append_size, IH. lia.
  - by rewrite andb_false_r in Hl.
  - destruct (negb (readable r) && str_true e); [done|]. rewrite IH. lia.
  - rewrite IH. lia.
Qed.

Lemma announced_length files : announced files = Z.of_nat (length files).
Proof.
  unfold announced, shown_files, hidden_files. rewrite length_take.
  destruct (Z.ltb_spec 10 (Z.of_nat (length files)));
    cbn [default from_option id]; lia.
Qed.

Lemma announced_total_size d :
  announced_total d = Z.of_nat (sum_list_with (λ g, length (snd g)) d).
Proof.
  induction d as [|g d IH]; simpl; [done|].
  fold (announced_total d). rewrite IH, announced_length. lia.
Qed.

Lemma count_bad_filter results :
  count_bad results =
    Z.of_nat (length (filter (λ r, readable r = false) results)).
Proof.
  unfold count_bad, count_good.
  induction results as [|r results IH]; [done|].
  rewrite !filter_cons. destruct (readable r); simpl in *; lia.
Qed.

(** X18. On results of [check_file], the entries shown under the headings and
    those announced as left add up to the number of problem files of the
    summary, and no heading shows more than ten. *)
Theorem summary_lists_every_bad_file (os : OS) (results : list Result) :
  Forall (λ r, ∃ filepath, check_file os filepath = Ok r) results →
  announced_total (group_errors results) = count_bad results ∧
  count_good results + count_bad results = Z.of_nat (length results) ∧
  Forall (λ g, (length (shown_files (snd g)) ≤ 10)%nat ∧
               shown_files (snd g) `prefix_of` snd g)
    (group_errors results).
Proof.
  intros Hres. split; [|split].
  - rewrite announced_total_size, group_errors_size, count_bad_filter.
    do 2 f_equal. induction Hres as [|r results [p Hp] _ IH]; [done|].
    rewrite !filter_cons, IH, (check_file_listed _ _ _ Hp).
    by destruct (readable r).
  - unfold count_bad. lia.
  - apply Forall_forall. intros g _. unfold shown_files.
    split; [rewrite length_take; lia|apply prefix_take].
Qed.

End Groups.

(** ** The further properties on the demo data *)

Lemma progress_line_bar_witness :
  ∃ pl, progress_line (self DemoRun.showing)
          (check_file_value Demo.os Demo.missing) = Ok pl ∧
        length (pl_bar pl) = 30%nat ∧
        (pl_bar pl = replicate 30 full_block ↔
         processed (self DemoRun.showing) = total_files (self DemoRun.showing)) ∧
        (pl_bar pl = replicate 30 light_shade ↔
         30 * processed (self DemoRun.showing)
           < total_files (self DemoRun.showing)).
Proof.
  apply (progress_line_bar (self DemoRun.showing)
           (check_file_value Demo.os Demo.missing)); vm_compute; done.
Defined.

Lemma progress_in_batch_witness :
  ∃ pl, progress_line (self DemoRun.showing)
          (check_file_value Demo.os Demo.missing) = Ok pl ∧
        length (pl_bar pl) = 30%nat ∧
        pl_total pl = Z.of_nat (length Demo.files) ∧
        1 ≤ pl_processed pl ≤ Z.of_nat (length Demo.files) ∧
        pl_processed pl = Z.of_nat (length (results (self DemoRun.showing))) ∧
        last (results (self DemoRun.showing))
          = Some (check_file_value Demo.os Demo.missing).
Proof.
  apply (progress_in_batch Demo.os 7 (new_checker 2) Demo.files
           DemoRun.showing 0).
  - discriminate.
  - apply exec_reachable.
  - reflexivity.
Defined.

Lemma worker_ends_witness :
  ((threads DemoRun.draining !! O = Some WGet ∧
    file_queue DemoRun.draining = []) ∨
   (∃ result e,
      threads DemoRun.draining !! O = Some (WProgress result) ∧
      last (results (self DemoRun.draining)) = Some result ∧
      stdout_write Demo.os (processed (self DemoRun.draining))
        (total_files (self DemoRun.draining))
        (readable result) (take 30 (filename result)) = Raised e ∧
      lock DemoRun.draining = Some O ∧
      lock (goto 0 WExit DemoRun.draining) = None)) ∧
  (console_shows Demo.os Demo.files = true →
   threads DemoRun.draining !! O = Some WGet ∧
   file_queue DemoRun.draining = []).
Proof.
  apply (worker_ends Demo.os 7 (new_checker 2) Demo.files
           DemoRun.draining (goto 0 WExit DemoRun.draining) 0).
  - discriminate.
  - apply exec_reachable.
  - reflexivity.
  - reflexivity.
Defined.

Lemma threads_started_witness :
  Z.of_nat (length (threads Demo.midway)) ≤
    Z.max 0 (Z.min (max_workers (new_checker 2))
               (Z.of_nat (length Demo.files))) ∧
  (mainpc Demo.midway = MReturned →
   Z.of_nat (length (threads Demo.midway)) =
     Z.max 0 (Z.min (max_workers (new_checker 2))
                (Z.of_nat (length Demo.files))) ∧
   ∀ pc, pc ∈ threads Demo.midway → pc = WExit).
Proof.
  apply (threads_started Demo.os 7 (new_checker 2) Demo.files Demo.midway).
  - discriminate.
  - apply exec_reachable.
Defined.

Lemma check_batch_leaves_witness :
  ∃ rs, check_batch Demo.os Demo.shuffled 1000 Demo.used Demo.files =
          (Some rs,
           {| max_workers := max_workers Demo.used; results := rs;
              total_files := Z.of_nat (length Demo.files);
              processed := Z.of_nat (length rs);
              start_time := Some 1000 |}) ∧
        (1 ≤ length rs ≤ length Demo.files)%nat ∧
        (console_shows Demo.os Demo.files = true →
         length rs = length Demo.files).
Proof.
  apply (check_batch_leaves Demo.os Demo.shuffled 1000 Demo.used Demo.files).
  - vm_compute. discriminate.
  - discriminate.
Defined.

Lemma run_from_main_timed_witness :
  ∃ rs checker',
    run_from_main Demo.os Demo.shuffled 1000 1003 8 Demo.used Demo.files
      = Some (Some rs, Some (1003 - 1000), checker') ∧
    rs ≠ [] ∧ (length rs ≤ length Demo.files)%nat ∧
    (console_shows Demo.os Demo.files = true →
     length rs = length Demo.files) ∧
    max_workers checker' = 8.
Proof.
  apply (run_from_main_timed Demo.os Demo.shuffled 1000 1003 8 Demo.used
           Demo.files).
  - lia.
  - discriminate.
Defined.

Lemma single_worker_in_order_witness :
  ∃ rs, fst (check_batch Demo.os Demo.shuffled 7 (new_checker 1) Demo.files)
          = Some rs ∧
        check_batch_calls Demo.os Demo.shuffled 7 (new_checker 1) Demo.files
          `prefix_of` Demo.files ∧
        Forall2 (λ filepath r, check_file Demo.os filepath = Ok r)
          (check_batch_calls Demo.os Demo.shuffled 7 (new_checker 1)
             Demo.files) rs ∧
        file <$> rs
          = check_batch_calls Demo.os Demo.shuffled 7 (new_checker 1)
              Demo.files ∧
        (console_shows Demo.os Demo.files = true →
         check_batch_calls Demo.os Demo.shuffled 7 (new_checker 1) Demo.files
           = Demo.files).
Proof.
  apply (single_worker_in_order Demo.os Demo.shuffled 7 (new_checker 1)
           Demo.files).
  reflexivity.
Defined.

Lemma get_settings_threads_witness :
  Settings.threads
    {| Settings.threads := 8; Settings.extensions := None;
       Settings.recursive := true |} =
    match py_int DemoLib.lib (str_strip DemoLib.lib (str " 8 ")) with
    | Ok n =>
        if str_true (str_strip DemoLib.lib (str " 8 ")) && (1 <=? n) &&
           (n <=? 16)
        then n else 4
    | Raised _ => 4
    end.
Proof.
  apply (get_settings_threads DemoLib.lib (str " 8 ") KeyboardInterrupt
           EOFError).
  reflexivity.
Defined.

(** The same dialogue types [99], a filter and [N]: the count stays 4, the
    filter is split and the recursion is switched off; [no] would leave it
    on. *)
Example get_settings_dialogue :
  get_settings DemoLib.lib (Line (str "99")) (Line (str " .pdf  .TXT "))
    (Line (str " N "))
  = Ok {| Settings.threads := 4;
          Settings.extensions := Some [str ".pdf"; str ".TXT"];
          Settings.recursive := false |} ∧
  get_settings DemoLib.lib (Line (str "abc")) (Line (str "")) (Line (str "no"))
  = Ok Settings.default.
Proof. split; reflexivity. Qed.

Lemma scan_directory_filter_sublist_witness :
  ∃ all_files,
    scan_directory DemoLib.lib DemoLib.fs (str "data") true None
      = Ok all_files ∧
    [str "data/a.txt"; str "data/B.TXT"; str "data/sub/d.txt"]
      `sublist_of` all_files.
Proof.
  apply (scan_directory_filter_sublist DemoLib.lib DemoLib.fs (str "data")
           true (Some [str ".TXT"])).
  reflexivity.
Defined.

Lemma scan_directory_recursive_elem_witness :
  ∃ file_list,
    scan_directory DemoLib.lib DemoLib.fs (str "data") true
      (Some [str ".TXT"]) = Ok file_list ∧
    ∀ p, p ∈ file_list ↔
         ∃ root dirs files file,
           (root, dirs, files) ∈ os_walk DemoLib.fs (str "data") ∧
           file ∈ files ∧
           p = os_path_join DemoLib.fs root file ∧
           scan_match DemoLib.lib DemoLib.fs (Some [str ".TXT"]) file = true.
Proof.
  apply (scan_directory_recursive_elem DemoLib.lib DemoLib.fs (str "data")
           (Some [str ".TXT"])).
  reflexivity.
Defined.

Lemma scan_directory_flat_witness :
  match os_listdir DemoLib.fs (str "data") with
  | Raised e =>
      scan_directory DemoLib.lib DemoLib.fs (str "data") false None
        = Raised e
  | Ok items =>
      ∃ file_list,
        scan_directory DemoLib.lib DemoLib.fs (str "data") false None
          = Ok file_list ∧
        ∀ p, p ∈ file_list ↔
             ∃ item, item ∈ items ∧
                     p = os_path_join DemoLib.fs (str "data") item ∧
                     os_path_isfile DemoLib.fs p = true ∧
                     scan_match DemoLib.lib DemoLib.fs None item = true
  end.
Proof.
  apply (scan_directory_flat DemoLib.lib DemoLib.fs (str "data") None).
  reflexivity.
Defined.

Lemma load_file_list_spec_witness :
  Forall (λ p, p ≠ [] ∧ startswith_hash p = false ∧
               os_path_exists DemoLib.os p = true)
    [Demo.ok; Demo.locked] ∧
  (os_path_exists DemoLib.os (str "list.txt") = false →
   [Demo.ok; Demo.locked] = []) ∧
  (os_path_exists DemoLib.os (str "list.txt") = true →
   ∃ lines, open_r_lines DemoLib.fs (str "list.txt") = Ok lines ∧
            [Demo.ok; Demo.locked] =
              filter (λ line, load_keep DemoLib.os line = true)
                (str_strip DemoLib.lib <$> lines)).
Proof.
  apply (load_file_list_spec DemoLib.lib DemoLib.os DemoLib.fs
           (str "list.txt") [Demo.ok; Demo.locked]).
  reflexivity.
Defined.

Lemma load_file_list_batch_witness :
  ∃ rs, fst (check_batch DemoLib.os Demo.shuffled 7 (new_checker 4)
               [Demo.ok; Demo.locked]) = Some rs ∧
        (length rs ≤ length [Demo.ok; Demo.locked])%nat ∧
        (console_shows DemoLib.os [Demo.ok; Demo.locked] = true →
         length rs = length [Demo.ok; Demo.locked]) ∧
        Forall (λ r, exists_ r = true ∧ error r ≠ Some msg_not_exist) rs.
Proof.
  apply (load_file_list_batch DemoLib.lib DemoLib.os DemoLib.fs
           (str "list.txt") [Demo.ok; Demo.locked] Demo.shuffled 7
           (new_checker 4)).
  - reflexivity.
  - simpl. lia.
Defined.

Lemma summary_lists_every_bad_file_witness :
  announced_total (group_errors (check_file_value Demo.os <$> Demo.files))
    = count_bad (check_file_value Demo.os <$> Demo.files) ∧
  count_good (check_file_value Demo.os <$> Demo.files) +
    count_bad (check_file_value Demo.os <$> Demo.files)
    = Z.of_nat (length (check_file_value Demo.os <$> Demo.files)) ∧
  Forall (λ g, (length (shown_files (snd g)) ≤ 10)%nat ∧
               shown_files (snd g) `prefix_of` snd g)
    (group_errors (check_file_value Demo.os <$> Demo.files)).
Proof.
  apply (summary_lists_every_bad_file Demo.os
           (check_file_value Demo.os <$> Demo.files)).
  apply Forall_fmap, Forall_forall. intros p _. exists p.
  apply check_file_returns.
Defined.

(** The scenario of four files: one good, three bad, under three
    headings in the order of their first appearance. *)
Example summary_of_demo :
  count_good (check_file_value Demo.os <$> Demo.files) = 1 ∧
  count_bad (check_file_value Demo.os <$> Demo.files) = 3 ∧
  (group_errors (check_file_value Demo.os <$> Demo.files)).*1
    = [msg_not_exist; msg_empty; msg_permission].
Proof. vm_compute. done. Qed.
